(** * Quoridor rule engine: a shallow embedding of [quoridor.py]

    The development follows the classes of the source: [Wall] (segment
    geometry), [Player], [Validator] (legal moves, legal walls, the
    depth-first connectivity search and the breadth-first distance), [Board]
    and [Game] (turn application).

    Coordinates.  A pawn cell is a pair of Python integers.  [Wall.__init__]
    adds [0.5] to both coordinates of both end points unless the segment is a
    "fake" probe.  All coordinates of a [Wall] object are therefore integers
    or integers plus one half; they are stored here in half units, that is a
    Python coordinate [c] is stored as the integer [2 * c].  A probe at the
    Python integer [x] is stored as [2 * x], a real wall at [x + 0.5] as
    [2 * x + 1].  Equality and order of coordinates, the only operations the
    source applies to them, are unchanged by this scaling. *)

From stdpp Require Import base numbers list gmap strings relations.
From Stdlib Require Import ZArith Lia.

Open Scope Z_scope.

(** A cell or lattice point, the Python tuple [(x, y)]. *)
Abbreviation pos := (Z * Z)%type.

(** [DEFAULT = [(-1, 0), (1, 0), (0, -1), (0, 1)]] *)
Definition DEFAULT : list pos := [(-1, 0); (1, 0); (0, -1); (0, 1)].

(** ** class Wall *)
Module Wall.

(** The attributes [self.start] and [self.end], in half units. *)
Record t : Type := mk { start : pos; end_ : pos }.

#[global] Instance t_eq_dec : EqDecision t.
Proof. solve_decision. Defined.

(** [Wall.__init__(self, start, end, fake=False)] *)
Definition init (s e : pos) (fake : bool) : t :=
  let '(x, y) := s in
  let '(dx, dy) := e in
  let '(x, y, dx, dy) :=
    if negb fake
    then (2 * x + 1, 2 * y + 1, 2 * dx + 1, 2 * dy + 1)
    else (2 * x, 2 * y, 2 * dx, 2 * dy) in
  if (dx <? x) || (dy <? y)
  then mk (dx, dy) (x, y)
  else mk (x, y) (dx, dy).

(** [Wall.overlaps(self, other)]: the seven tests of the source, in order. *)
Definition overlaps (self other : t) : bool :=
  let '(s0, s1) := start self in
  let '(e0, e1) := end_ self in
  let '(os0, os1) := start other in
  let '(oe0, oe1) := end_ other in
  if (s0 =? os0) && (s1 =? os1) && (e0 =? oe0) && (e1 =? oe1) then true
  else if (s0 <? oe0) && (oe0 <? e0)
          && (s1 =? e1) && (e1 =? oe1) && (oe1 =? os1) then true
  else if (s0 <? os0) && (os0 <? e0)
          && (s1 =? e1) && (e1 =? oe1) && (oe1 =? os1) then true
  else if (s1 <? oe1) && (oe1 <? e1)
          && (s0 =? e0) && (e0 =? oe0) && (oe0 =? os0) then true
  else if (s1 <? os1) && (os1 <? e1)
          && (s0 =? e0) && (e0 =? oe0) && (oe0 =? os0) then true
  else if (s1 <? os1) && (os1 <? e1)
          && (os0 <? s0) && (s0 <? oe0) then true
  else if (s0 <? os0) && (os0 <? e0)
          && (os1 <? s1) && (s1 <? oe1) then true
  else false.

End Wall.

(** The wall the engine builds for lattice point [p] and direction [d]:
    [Wall(pos, (pos[0] + 2 * dx, pos[1] + 2 * dy))]. *)
Definition wall_at (p d : pos) : Wall.t :=
  Wall.init p (p.1 + 2 * d.1, p.2 + 2 * d.2) false.

(** Segments the engine stores in the wall list: built from a lattice point
    and one of the four directions. *)
Definition engine_wall (w : Wall.t) : Prop :=
  ∃ p d, d ∈ DEFAULT ∧ w = wall_at p d.

(** Probe segments: built with [fake=True] from two cells. *)
Definition probe (w : Wall.t) : Prop :=
  ∃ s e, w = Wall.init s e true.

(** ** class Player *)
Module Player.

Record t : Type := mk {
  colour : string;
  position : pos;
  remaining_walls : Z;
  won : bool;
  wins : pos
}.

#[global] Instance t_eq_dec : EqDecision t.
Proof. solve_decision. Defined.

(** [Player.__init__(self, colour, position, walls)].  The attribute
    [wins] is assigned only when the start cell lies on one of the two
    centre lines; an object built from any other cell has no [wins], and
    every later use of it ([setpos], the connectivity check) raises
    [AttributeError].  Such an object is [None] here. *)
Definition init (colour : string) (position : pos) (walls : Z) : option t :=
  if position.2 =? 4
  then Some (mk colour position walls false (8 - position.1, -1))
  else if position.1 =? 4
  then Some (mk colour position walls false (-1, 8 - position.2))
  else None.

(** The test of [setpos]:
    [int(position[0]) == int(wins[0]) or int(position[1]) == int(wins[1])]. *)
Definition at_goal (position wins : pos) : bool :=
  (position.1 =? wins.1) || (position.2 =? wins.2).

(** [Player.setpos(self, position)] *)
Definition setpos (self : t) (position : pos) : t :=
  mk (colour self) position (remaining_walls self)
     (if at_goal position (wins self) then true else won self)
     (wins self).

(** [Player.place_wall(self)] *)
Definition place_wall (self : t) : t :=
  mk (colour self) (position self) (remaining_walls self - 1)
     (won self) (wins self).

End Player.

(** ** The shared store

    [Game.__init__] builds one [Board] and one player list and hands
    [board.grid], [board.walls] and [players] to the [Validator]; the
    validator keeps references to these very lists.  Every object reachable
    from a [Game] is therefore one field of a single store, and the methods
    of the four classes read and write that store. *)
Record store : Type := mkStore {
  grid : list (list (option nat));   (* [board.grid]: player index or [None] *)
  walls : list Wall.t;               (* [board.walls] *)
  players : list Player.t;           (* [game.players] *)
  visited : gset pos;                (* [validator.visited] *)
  currplayer : Z;                    (* [game.currplayer] *)
  num_players : Z                    (* [game.num_players] *)
}.

Definition set_grid (g : list (list (option nat))) (st : store) : store :=
  mkStore g (walls st) (players st) (visited st) (currplayer st) (num_players st).
Definition set_walls (w : list Wall.t) (st : store) : store :=
  mkStore (grid st) w (players st) (visited st) (currplayer st) (num_players st).
Definition set_players (ps : list Player.t) (st : store) : store :=
  mkStore (grid st) (walls st) ps (visited st) (currplayer st) (num_players st).
Definition set_visited (v : gset pos) (st : store) : store :=
  mkStore (grid st) (walls st) (players st) v (currplayer st) (num_players st).
Definition set_currplayer (c : Z) (st : store) : store :=
  mkStore (grid st) (walls st) (players st) (visited st) c (num_players st).

(** Methods that mutate the store: a state monad. *)
Definition M (A : Type) : Type := store → A * store.
Definition ret {A} (a : A) : M A := λ st, (a, st).
Definition bind {A B} (m : M A) (k : A → M B) : M B :=
  λ st, let '(a, st') := m st in k a st'.
Notation "'let*' x ':=' m 'in' k" := (bind m (λ x, k))
  (at level 10, x binder, m at level 100, k at level 200).

(** [0 <= x < 9 and 0 <= y < 9] *)
Definition in_board (c : pos) : bool :=
  (0 <=? c.1) && (c.1 <? 9) && (0 <=? c.2) && (c.2 <? 9).

(** [self.grid[x][y]], read at indices that the bounds tests of the caller
    keep within [0, 8] (the grid is 9 x 9 by [Board.__init__]); [None] is
    the empty cell. *)
Definition cell (g : list (list (option nat))) (x y : Z) : option nat :=
  match g !! Z.to_nat x with
  | Some row => match row !! Z.to_nat y with Some c => c | None => None end
  | None => None
  end.

Definition occupied (g : list (list (option nat))) (x y : Z) : bool :=
  match cell g x y with Some _ => true | None => false end.

(** ** class Validator *)
Module Validator.

(** [Validator.reset(self)] *)
Definition reset : M unit := λ st, (tt, set_visited ∅ st).

(** [self.visited.add(c)] *)
Definition visit (c : pos) : M unit :=
  λ st, (tt, set_visited ({[c]} ∪ visited st) st).

(** [Validator.any_overlap(self, start, end, fake=False)] *)
Definition any_overlap (st : store) (s e : pos) (fake : bool) : bool :=
  existsb (Wall.overlaps (Wall.init s e fake)) (walls st).

(** The body of the loop of [possible_moves] for one direction. *)
Definition moves_dir (st : store) (p d : pos) : list pos :=
  let '(x, y) := p in
  let '(dx, dy) := d in
  if (0 <=? x + dx) && (x + dx <? 9) && (0 <=? y + dy) && (y + dy <? 9) then
    if occupied (grid st) (x + dx) (y + dy) then
      if (0 <=? x + dx * 2) && (x + dx * 2 <? 9)
         && (0 <=? y + dy * 2) && (y + dy * 2 <? 9)
         && negb (occupied (grid st) (x + dx * 2) (y + dy * 2))
         && negb (any_overlap st (x, y) (x + 2 * dx, y + 2 * dy) true)
      then [(x + 2 * dx, y + 2 * dy)]
      else
        (if negb (dy =? 0) && (x + 1 <? 9)
            && negb (occupied (grid st) (x + 1) (y + dy))
            && negb (any_overlap st (x, y) (x + 1, y + dy) true)
         then [(x + 1, y + dy)] else [])
        ++ (if negb (dy =? 0) && (0 <=? x - 1)
               && negb (occupied (grid st) (x - 1) (y + dy))
               && negb (any_overlap st (x, y) (x - 1, y + dy) true)
            then [(x - 1, y + dy)] else [])
        ++ (if negb (dx =? 0) && (y + 1 <? 9)
               && negb (occupied (grid st) (x + dx) (y + 1))
               && negb (any_overlap st (x, y) (x + dx, y + 1) true)
            then [(x + dx, y + 1)] else [])
        ++ (if negb (dx =? 0) && (0 <=? y - 1)
               && negb (occupied (grid st) (x + dx) (y - 1))
               && negb (any_overlap st (x, y) (x + dx, y - 1) true)
            then [(x + dx, y - 1)] else [])
    else if negb (any_overlap st (x, y) (x + dx, y + dy) true)
    then [(x + dx, y + dy)]
    else []
  else [].

(** [Validator.possible_moves(self, pos)] *)
Definition possible_moves (st : store) (p : pos) : list pos :=
  flat_map (moves_dir st p) DEFAULT.

(** The goal test of both searches:
    [node[0] == dest[0] or node[1] == dest[1]]. *)
Definition is_goal (node dest : pos) : bool :=
  (node.1 =? dest.1) || (node.2 =? dest.2).

(** *** [way_exists]: the recursive depth-first search

    The recursion of the source is on the set of unvisited cells, which is
    not structural; the embedding recurses on a fuel counter and answers
    [None] when it runs out.  [way_exists_fuel_total] shows that [FUEL] is
    never exhausted, whatever the store and the arguments are. *)

(** The [for dx, dy in DEFAULT] loop of [way_exists], with its early
    [return True]; [rec] is the recursive call. *)
Definition way_loop (rec : pos → store → option (bool * store)) (node : pos) :
    list pos → store → option (bool * store) :=
  fix go (dirs : list pos) (st : store) : option (bool * store) :=
    match dirs with
    | [] => Some (false, st)
    | d :: dirs' =>
        let e := (node.1 + d.1, node.2 + d.2) in
        if in_board e
           && negb (bool_decide (e ∈ visited st))
           && negb (any_overlap st node e true)
        then match rec e st with
             | None => None
             | Some (true, st') => Some (true, st')
             | Some (false, st') => go dirs' st'
             end
        else go dirs' st
    end.

Fixpoint way_exists_fuel (fuel : nat) (node dest : pos) (st : store) :
    option (bool * store) :=
  match fuel with
  | O => None
  | S fuel' =>
      if is_goal node dest then Some (true, st)
      else way_loop (λ e, way_exists_fuel fuel' e dest) node DEFAULT
                    (snd (visit node st))
  end.

(** 81 cells, the start node (which may lie off the board) and the call
    that finds the goal. *)
Definition FUEL : nat := 83.

(** [Validator.way_exists(self, node, dest)] *)
Definition way_exists (node dest : pos) : M bool :=
  λ st, match way_exists_fuel FUEL node dest st with
        | Some r => r
        | None => (false, st)
        end.

(** *** [bfs]: the breadth-first distance *)

(** The [for move in self.possible_moves(curr)] loop of [bfs]. *)
Definition bfs_push (depth : Z) (moves : list pos)
    (queue : list (pos * Z)) (st : store) : list (pos * Z) * store :=
  fold_left
    (λ (acc : list (pos * Z) * store) (move : pos),
       let '(q, s) := acc in
       if bool_decide (move ∈ visited s) then (q, s)
       else (q ++ [(move, depth + 1)], snd (visit move s)))
    moves (queue, st).

(** The [while queue] loop of [bfs], on a fuel counter
    ([bfs_loop_total]: [FUEL] iterations always suffice). *)
Fixpoint bfs_loop (fuel : nat) (wins : pos) (queue : list (pos * Z))
    (st : store) : option (Z * store) :=
  match fuel with
  | O => None
  | S fuel' =>
      match queue with
      | [] => Some (1000000, st)
      | (curr, depth) :: queue' =>
          if is_goal curr wins then Some (depth, st)
          else
            let '(q, st') := bfs_push depth (possible_moves st curr) queue' st in
            bfs_loop fuel' wins q st'
      end
  end.

(** [Validator.bfs(self, pos, wins)] *)
Definition bfs (p wins : pos) : M Z :=
  λ st,
    let st1 := snd (visit p (snd (reset st))) in
    match bfs_loop FUEL wins [(p, 0)] st1 with
    | Some r => r
    | None => (1000000, st1)
    end.

(** *** Wall placement queries *)

(** [self.walls.append(w)] and [del self.walls[-1]] *)
Definition push_wall (w : Wall.t) : M unit :=
  λ st, (tt, set_walls (walls st ++ [w]) st).
Definition pop_wall : M unit :=
  λ st, (tt, set_walls (removelast (walls st)) st).

(** The [for player in self.players] loop of [possible_orients], with its
    [break]; the result is the final value of [can]. *)
Fixpoint all_connected (ps : list Player.t) : M bool :=
  match ps with
  | [] => ret true
  | player :: ps' =>
      let* _ := reset in
      let* ok := way_exists (Player.position player) (Player.wins player) in
      if ok then all_connected ps' else ret false
  end.

(** The body of the loop of [possible_orients] for one direction: the
    directions accepted so far are [acc]. *)
Definition orient_dir (p d : pos) (acc : list pos) : M (list pos) :=
  λ st,
    let e := (p.1 + 2 * d.1, p.2 + 2 * d.2) in
    if (-1 <=? e.1) && (e.1 <? 9) && (-1 <=? e.2) && (e.2 <? 9) then
      if negb (any_overlap st p e false) then
        (let* _ := push_wall (Wall.init p e false) in
         let* can := (λ s, all_connected (players s) s) in
         let* _ := pop_wall in
         ret (if can then acc ++ [d] else acc)) st
      else (acc, st)
    else (acc, st).

(** Monadic left fold: a [for] loop that threads the store. *)
Fixpoint foldM {A B} (f : B → A → M A) (l : list B) (a : A) : M A :=
  match l with
  | [] => ret a
  | b :: l' => let* a' := f b a in foldM f l' a'
  end.

(** [Validator.possible_orients(self, pos)] *)
Definition possible_orients (p : pos) : M (list pos) :=
  foldM (orient_dir p) DEFAULT [].

(** [for y in range(8): for x in range(8)]: the lattice points in the
    order of the two nested loops. *)
Definition lattice : list pos :=
  flat_map (λ y, map (λ x, (x, y)) (seqZ 0 8)) (seqZ 0 8).

(** [Validator.possible_walls(self, player)] *)
Definition possible_walls (player : Player.t) : M (list pos) :=
  if Player.remaining_walls player =? 0 then ret []
  else
    foldM (λ p acc,
             let* os := possible_orients p in
             ret (match os with [] => acc | _ :: _ => acc ++ [p] end))
          lattice [].

(** [Validator.all_possible_walls(self)] *)
Definition all_possible_walls : M (list (pos * pos)) :=
  foldM (λ p acc,
           let* os := possible_orients p in
           ret (acc ++ map (λ d, (p, d)) os))
        lattice [].

(** The inner loop of [best_wall]: the sum of the distances of the players
    that do not stand on [my_pos]. *)
Definition others_score (my_pos : pos) (ps : list Player.t) : M Z :=
  foldM (λ player score,
           if bool_decide (Player.position player ≠ my_pos)
           then let* d := bfs (Player.position player) (Player.wins player) in
                ret (score + d)
           else ret score)
        ps 0.

(** The body of the loop of [best_wall] for one candidate; the accumulator
    is [(bwall, bscore)]. *)
Definition best_wall_step (my_pos win : pos) (cand : pos * pos)
    (best : option (pos * pos) * Z) : M (option (pos * pos) * Z) :=
  let '(p, dir) := cand in
  let* _ := push_wall (Wall.init p (p.1 + 2 * dir.1, p.2 + 2 * dir.2) false) in
  let* score := (λ s, others_score my_pos (players s) s) in
  let* mine := bfs my_pos win in
  let score := score - mine in
  let* _ := pop_wall in
  ret (if best.2 <? score then (Some (p, dir), score) else best).

(** [Validator.best_wall(self, my_pos, win)] *)
Definition best_wall (my_pos win : pos) : M (option (pos * pos)) :=
  let* all_w := all_possible_walls in
  let* best := foldM (best_wall_step my_pos win) all_w (None, -1000) in
  ret best.1.

End Validator.

(** ** Python list indexing

    [l[i]] accepts [0 <= i < len(l)] and, counting from the end,
    [-len(l) <= i < 0]; any other index raises [IndexError], which is
    [None] here. *)
Definition py_index {A} (l : list A) (i : Z) : option nat :=
  let n := Z.of_nat (length l) in
  if (0 <=? i) && (i <? n) then Some (Z.to_nat i)
  else if (- n <=? i) && (i <? 0) then Some (Z.to_nat (n + i))
  else None.

Definition py_get {A} (l : list A) (i : Z) : option A :=
  match py_index l i with Some k => l !! k | None => None end.

Definition py_set {A} (l : list A) (i : Z) (a : A) : option (list A) :=
  match py_index l i with Some k => Some (<[k := a]> l) | None => None end.

(** ** class Board *)
Module Board.

(** [self.grid[x][y]] and [self.grid[x][y] = v] *)
Definition grid_get (g : list (list (option nat))) (x y : Z) :
    option (option nat) :=
  match py_get g x with Some row => py_get row y | None => None end.

Definition grid_set (g : list (list (option nat))) (x y : Z) (v : option nat) :
    option (list (list (option nat))) :=
  match py_get g x with
  | Some row =>
      match py_set row y v with
      | Some row' => py_set g x row'
      | None => None
      end
  | None => None
  end.

(** [Board.__init__]: no wall and nine rows of nine empty cells. *)
Definition empty_grid : list (list (option nat)) :=
  replicate 9 (replicate 9 None).

(** [Board.move(self, fr, to)]; [None] is an [IndexError]. *)
Definition move (fr to : pos) (st : store) : option store :=
  let '(x, y) := fr in
  let '(dx, dy) := to in
  match grid_get (grid st) x y with
  | Some v =>
      match grid_set (grid st) dx dy v with
      | Some g1 =>
          match grid_set g1 x y None with
          | Some g2 => Some (set_grid g2 st)
          | None => None
          end
      | None => None
      end
  | None => None
  end.

(** [Board.place_wall(self, pos, orient)] *)
Definition place_wall (p orient : pos) (st : store) : store :=
  let '(x, y) := p in
  let '(dx, dy) := orient in
  set_walls (walls st ++ [Wall.init (x, y) (x + 2 * dx, y + 2 * dy) false]) st.

End Board.

(** ** class Game *)
Module Game.

(** The player lists of [Game.__init__]. *)
Definition players2 : list (option Player.t) :=
  [Player.init "darkgreen" (4, 0) 10; Player.init "slateblue" (4, 8) 10].
Definition players4 : list (option Player.t) :=
  [Player.init "darkgreen" (4, 0) 5; Player.init "gold" (8, 4) 5;
   Player.init "slateblue" (4, 8) 5; Player.init "plum" (0, 4) 5].

(** The loop [for i in range(num_players)] that puts the pawns on the
    grid. *)
Fixpoint put_pawns (ps : list Player.t) (i : nat) (n : nat)
    (g : list (list (option nat))) : option (list (list (option nat))) :=
  match n with
  | O => Some g
  | S n' =>
      match ps !! i with
      | Some player =>
          match Board.grid_set g (Player.position player).1
                               (Player.position player).2 (Some i) with
          | Some g' => put_pawns ps (S i) n' g'
          | None => None
          end
      | None => None
      end
  end.

(** [Game.__init__(self, num_players, screen_rect)], without the images
    and the font: the store of a new game. *)
Definition init (n : Z) : option store :=
  match mapM id (if n =? 2 then players2 else players4) with
  | Some ps =>
      match put_pawns ps 0 (Z.to_nat n) Board.empty_grid with
      | Some g => Some (mkStore g [] ps ∅ 0 n)
      | None => None
      end
  | None => None
  end.

(** [self.players[self.currplayer]] *)
Definition current (st : store) : option Player.t :=
  py_get (players st) (currplayer st).

(** [Game.possible_moves(self)], the list of cells only. *)
Definition possible_moves (st : store) : option (list pos) :=
  match current st with
  | Some player => Some (Validator.possible_moves st (Player.position player))
  | None => None
  end.

(** [Game.possible_walls(self)] *)
Definition possible_walls (st : store) : option (list pos * store) :=
  match current st with
  | Some player => Some (Validator.possible_walls player st)
  | None => None
  end.

(** [self.currplayer += 1; self.currplayer %= self.num_players];
    [None] is a [ZeroDivisionError]. *)
Definition next_turn (st : store) : option store :=
  if num_players st =? 0 then None
  else Some (set_currplayer ((currplayer st + 1) `mod` num_players st) st).

(** [Game.make_move(self, type, pos, orient=None)].  [None] is a Python
    exception ([IndexError], or [TypeError] when a wall is asked for
    without its orientation); the source raises no exception of its own. *)
Definition make_move (type : string) (p : pos) (orient : option pos)
    (st : store) : option store :=
  if String.eqb type "wall" then
    match orient with
    | Some o =>
        let st1 := Board.place_wall p o st in
        match current st1 with
        | Some player =>
            match py_set (players st1) (currplayer st1)
                         (Player.place_wall player) with
            | Some ps => next_turn (set_players ps st1)
            | None => None
            end
        | None => None
        end
    | None => None
    end
  else if String.eqb type "move" then
    match current st with
    | Some player =>
        match Board.move (Player.position player) p st with
        | Some st1 =>
            match py_set (players st1) (currplayer st1)
                         (Player.setpos player p) with
            | Some ps => next_turn (set_players ps st1)
            | None => None
            end
        | None => None
        end
    | None => None
    end
  else Some st.

End Game.

(** The store of a new two-player game. *)
Definition game2 : store :=
  default (mkStore [] [] [] ∅ 0 0) (Game.init 2).

(** The shape [Board.__init__] gives the grid, which [Board.move] keeps. *)
Definition wf_grid (g : list (list (option nat))) : Prop :=
  length g = 9%nat ∧ ∀ i row, g !! i = Some row → length row = 9%nat.

(** The new two-player game, but the first player has spent its walls. *)
Definition spent2 : store :=
  set_players [Player.mk "darkgreen" (4, 0) 0 false (-1, 8);
               Player.mk "slateblue" (4, 8) 10 false (-1, 0)] game2.

(** ** Auxiliary notions of the statements *)

Import Validator.

(** How a search result on one store reads on another store. *)
Definition onto (st : store) (r : bool * store) : bool * store :=
  (r.1, set_visited (visited r.2) st).

(** The connectivity test of [possible_orients] for one player:
    [self.reset()] and then [self.way_exists(player.position, player.wins)]. *)
Definition connected (st : store) (player : Player.t) : bool :=
  (way_exists (Player.position player) (Player.wins player) (reset st).2).1.

(** The three conditions under which [possible_orients] accepts direction
    [d] at lattice point [p]. *)
Definition in_lattice_ext (e : pos) : bool :=
  (-1 <=? e.1) && (e.1 <? 9) && (-1 <=? e.2) && (e.2 <? 9).
Definition orient_ok (st : store) (p d : pos) : bool :=
  let e := (p.1 + 2 * d.1, p.2 + 2 * d.2) in
  in_lattice_ext e
  && negb (any_overlap st p e false)
  && forallb (connected (push_wall (wall_at p d) st).2) (players st).

(** A step of a loop that only touches [visited] and computes [g]. *)
Definition touches_visited_only {A} (m : M A) (st : store) (a : A) : Prop :=
  ∀ v, ∃ v', m (set_visited v st) = (a, set_visited v' st).

Definition corner_store : store := set_walls [wall_at (1, 0) (-1, 0)] game2.

(** The far end of the wall at [p] in direction [d], and the direction back. *)
Definition far_end (p d : pos) : pos := (p.1 + 2 * d.1, p.2 + 2 * d.2).
Definition opposite (d : pos) : pos := (- d.1, - d.2).

(** A method that changes no field but [visited]. *)
Definition keeps_store {A} (m : M A) (st : store) : Prop :=
  ∀ v, ∃ a v', m (set_visited v st) = (a, set_visited v' st).

(** An action of a player, as the game loop passes it to [make_move]. *)
Inductive action : Type :=
  | Move (to : pos)
  | PlaceWall (p d : pos).

(** One turn driven by the interface: it offers the cells of
    [possible_moves], the wall starts of [possible_walls] and, for the
    chosen start, the directions of [possible_orients], and passes the
    chosen action to [make_move].  [None] when the action is not offered. *)
Definition turn (a : action) (st : store) : option store :=
  match a with
  | Move to =>
      match Game.possible_moves st with
      | Some ms =>
          if bool_decide (to ∈ ms) then Game.make_move "move" to None st else None
      | None => None
      end
  | PlaceWall p d =>
      match Game.possible_walls st with
      | Some (starts, st1) =>
          if bool_decide (p ∈ starts) then
            let '(os, st2) := possible_orients p st1 in
            if bool_decide (d ∈ os) then Game.make_move "wall" p (Some d) st2
            else None
          else None
      | None => None
      end
  end.

Fixpoint play (acts : list action) (st : store) : option store :=
  match acts with
  | [] => Some st
  | a :: acts' =>
      match turn a st with Some st' => play acts' st' | None => None end
  end.

(** A two-player game in which the first pawn has walked up to (4, 7), just
    below the second pawn on (4, 8); the second player has put one wall to
    the right of the cells (4, 6) and (4, 7). *)
Definition side_step_play : list action :=
  [Move (4, 1); PlaceWall (4, 7) (0, -1);
   Move (4, 2); Move (3, 8); Move (4, 3); Move (4, 8);
   Move (4, 4); Move (3, 8); Move (4, 5); Move (4, 8);
   Move (4, 6); Move (3, 8); Move (4, 7); Move (4, 8)].

(** The store that [side_step_play] leads to from a new two-player game
    ([side_step_store_played]). *)
Definition side_step_store : store :=
  mkStore
    (<[4%nat := <[7%nat := Some 0%nat]> (<[8%nat := Some 1%nat]> (replicate 9 None))]>
       Board.empty_grid)
    [wall_at (4, 7) (0, -1)]
    [Player.mk "darkgreen" (4, 7) 10 false (-1, 8);
     Player.mk "slateblue" (4, 8) 9 false (-1, 0)]
    ∅ 0 2.

(** The 81 cells of the board, as a set. *)
Definition board : gset pos :=
  list_to_set (flat_map (λ x, map (λ y, (x, y)) (seqZ 0 9)) (seqZ 0 9)).

(** The cells of the board that a search has not visited yet. *)
Definition unvisited (v : gset pos) : nat := size (board ∖ v).

(** [reach st n a b]: [n] successive moves, each one offered by
    [possible_moves] on the grid and walls of [st], lead from [a] to [b]. *)
Inductive reach (st : store) : nat → pos → pos → Prop :=
  | reach_here (a : pos) : reach st 0 a a
  | reach_step (n : nat) (a b c : pos) :
      b ∈ possible_moves st a → reach st n b c → reach st (S n) a c.

(** What [bfs] computes: the length of a shortest chain of moves from [p] to
    a cell that satisfies the goal, or the sentinel when there is none. *)
Definition shortest (st : store) (p wins : pos) (d : Z) : Prop :=
  (∃ n c, d = Z.of_nat n ∧ (n ≤ 81)%nat
          ∧ reach st n p c ∧ is_goal c wins = true
          ∧ ∀ n' c', reach st n' p c' → is_goal c' wins = true → (n ≤ n')%nat)
  ∨ (d = 1000000 ∧ ∀ n c, reach st n p c → is_goal c wins = false).

(** The queue holds depths in non-decreasing order, at most one apart. *)
Fixpoint queue_ok (q : list (pos * Z)) : Prop :=
  match q with
  | [] => True
  | (_, d) :: q' => (∀ c' d', (c', d') ∈ q' → d ≤ d' ≤ d + 1) ∧ queue_ok q'
  end.

(** A visited cell that has left the queue: it is no goal and all its moves
    are visited. *)
Definition explored (st : store) (wins : pos) (v : gset pos) (c : pos) : Prop :=
  c ∈ v ∧ is_goal c wins = false ∧ ∀ c', c' ∈ possible_moves st c → c' ∈ v.

(** The invariant of the [while queue] loop of [bfs] started at [p]. *)
Definition bfs_inv (st : store) (p wins : pos) (q : list (pos * Z))
    (v : gset pos) : Prop :=
  queue_ok q
  ∧ (∀ c d, (c, d) ∈ q →
       c ∈ v ∧ d + Z.of_nat (length q + unvisited v) ≤ 82
       ∧ ∃ n, d = Z.of_nat n ∧ reach st n p c)
  ∧ (∀ c, c ∈ v → (∃ d, (c, d) ∈ q) ∨ explored st wins v c)
  ∧ (∀ n c, reach st n p c →
       explored st wins v c
       ∨ ∃ c' d' m, (c', d') ∈ q ∧ reach st m c' c
                    ∧ d' + Z.of_nat m ≤ Z.of_nat n).

(** A lattice point at which [possible_orients] returns some direction. *)
Definition has_orient (st : store) (p : pos) : bool :=
  match List.filter (orient_ok st p) DEFAULT with [] => false | _ :: _ => true end.

(** The horizontal and the vertical wall whose lower end, after
    canonicalization, is the lattice point [(a, b)]. *)
Definition hwall (a b : Z) : Wall.t := wall_at (a, b) (1, 0).
Definition vwall (a b : Z) : Wall.t := wall_at (a, b) (0, 1).

(** One step of the search: from [a] to the neighbour [b] in one of the four
    directions, on the board, with no wall across. *)
Definition open_step (st : store) (a b : pos) : Prop :=
  ∃ d, d ∈ DEFAULT ∧ b = (a.1 + d.1, a.2 + d.2)
       ∧ in_board b = true ∧ any_overlap st a b true = false.

(** Some cell that satisfies the goal test can be reached from [node] by
    steps that no wall blocks. *)
Definition goal_reachable (st : store) (node dest : pos) : Prop :=
  ∃ c, rtc (open_step st) node c ∧ is_goal c dest = true.

(** A visited cell that the search has finished with: it is no goal and all
    its open neighbours are visited. *)
Definition closed_in (st : store) (dest : pos) (v : gset pos) (c : pos) : Prop :=
  is_goal c dest = false ∧ ∀ c', open_step st c c' → c' ∈ v.

(** What a failed search leaves behind. *)
Definition failed_search (st : store) (dest : pos) (v v' : gset pos) : Prop :=
  v ⊆ v' ∧ ∀ c, c ∈ v' → c ∉ v → closed_in st dest v' c.

(** The sum of the wall budgets of the players. *)
Definition total_budget (ps : list Player.t) : Z :=
  foldr (λ player acc, Player.remaining_walls player + acc) 0 ps.

(** [Validator.best_move(self, start, wins)]; [None] is the [IndexError] of
    [moves[0]] when there is no move. *)
Definition best_move (start wins : pos) (st : store) :
    option ((pos * Z) * store) :=
  match possible_moves st start with
  | [] => None
  | m0 :: _ =>
      Some ((let* s0 := bfs m0 wins in
             foldM (λ move best,
                      let* score := bfs move wins in
                      ret (if score <? best.2 then (move, score) else best))
                   (possible_moves st start) (m0, s0)) st)
  end.

(** A store on which every search ends at once: both players of a
    two-player game stand on their goal rows. *)
Definition met_store : store :=
  mkStore
    (<[4%nat := <[0%nat := Some 1%nat]> (<[8%nat := Some 0%nat]> (replicate 9 None))]>
       Board.empty_grid)
    []
    [Player.mk "darkgreen" (4, 8) 10 true (-1, 8);
     Player.mk "slateblue" (4, 0) 10 false (-1, 0)]
    ∅ 1 2.

(** Every player stands on a board cell that holds its index, and every
    occupied board cell holds the index of the player that stands on it. *)
Definition grid_agrees (st : store) : Prop :=
  wf_grid (grid st)
  ∧ (∀ i player, players st !! i = Some player →
       in_board (Player.position player) = true
       ∧ cell (grid st) (Player.position player).1 (Player.position player).2
         = Some i)
  ∧ (∀ c i, in_board c = true → cell (grid st) c.1 c.2 = Some i →
       ∃ player, players st !! i = Some player ∧ Player.position player = c).

(** * Geometry *)

Lemma if_true_orb (c d : bool) : (if c then true else d) = c || d.
Proof. by destruct c. Qed.

Lemma overlaps_true_iff (a b : Wall.t) :
  Wall.overlaps a b = true ↔
  let '(s0, s1) := Wall.start a in
  let '(e0, e1) := Wall.end_ a in
  let '(os0, os1) := Wall.start b in
  let '(oe0, oe1) := Wall.end_ b in
  (s0 = os0 ∧ s1 = os1 ∧ e0 = oe0 ∧ e1 = oe1)
  ∨ (s0 < oe0 < e0 ∧ s1 = e1 ∧ e1 = oe1 ∧ oe1 = os1)
  ∨ (s0 < os0 < e0 ∧ s1 = e1 ∧ e1 = oe1 ∧ oe1 = os1)
  ∨ (s1 < oe1 < e1 ∧ s0 = e0 ∧ e0 = oe0 ∧ oe0 = os0)
  ∨ (s1 < os1 < e1 ∧ s0 = e0 ∧ e0 = oe0 ∧ oe0 = os0)
  ∨ (s1 < os1 < e1 ∧ os0 < s0 < oe0)
  ∨ (s0 < os0 < e0 ∧ os1 < s1 < oe1).
Proof.
  unfold Wall.overlaps.
  destruct a as [[s0 s1] [e0 e1]], b as [[os0 os1] [oe0 oe1]]; simpl.
  rewrite !if_true_orb, orb_false_r.
  rewrite !orb_true_iff, !andb_true_iff, !Z.eqb_eq, !Z.ltb_lt.
  tauto.
Qed.

(** A probe has even half-unit coordinates, whatever its two cells are. *)
Lemma probe_even (w : Wall.t) :
  probe w →
  ∃ a b c d, w = Wall.mk (2 * a, 2 * b) (2 * c, 2 * d).
Proof.
  intros ([x y] & [dx dy] & ->). unfold Wall.init; simpl.
  destruct (_ || _); eauto.
Qed.

(** A wall of the wall list has odd half-unit coordinates, is axis-parallel
    and is two cells (four half units) long. *)
Lemma engine_wall_shape (w : Wall.t) :
  engine_wall w →
  ∃ a b, w = Wall.mk (2 * a + 1, 2 * b + 1) (2 * a + 5, 2 * b + 1)
       ∨ w = Wall.mk (2 * a + 1, 2 * b + 1) (2 * a + 1, 2 * b + 5).
Proof.
  intros ([x y] & d & Hd & ->). unfold wall_at, Wall.init, DEFAULT in *; simpl.
  repeat (apply elem_of_cons in Hd as [-> | Hd]); [| | | | by apply elem_of_nil in Hd];
    simpl.
  - exists (x - 2), y. left.
    replace (_ || _) with true by (symmetry; apply orb_true_iff; left; lia).
    f_equal; f_equal; lia.
  - exists x, y. left.
    replace (_ || _) with false by (symmetry; apply orb_false_iff; split; lia).
    f_equal; f_equal; lia.
  - exists x, (y - 2). right.
    replace (_ || _) with true by (symmetry; apply orb_true_iff; right; lia).
    f_equal; f_equal; lia.
  - exists x, y. right.
    replace (_ || _) with false by (symmetry; apply orb_false_iff; split; lia).
    f_equal; f_equal; lia.
Qed.

Lemma overlaps_sym_engine_engine (a b : Wall.t) :
  engine_wall a → engine_wall b → Wall.overlaps a b = Wall.overlaps b a.
Proof.
  intros (xa & ya & Ha)%engine_wall_shape (xb & yb & Hb)%engine_wall_shape.
  apply eq_true_iff_eq. rewrite !overlaps_true_iff.
  destruct Ha as [-> | ->], Hb as [-> | ->]; simpl; lia.
Qed.

Lemma overlaps_sym_probe_engine (a b : Wall.t) :
  probe a → engine_wall b → Wall.overlaps a b = Wall.overlaps b a.
Proof.
  intros (a0 & a1 & a2 & a3 & ->)%probe_even (xb & yb & Hb)%engine_wall_shape.
  apply eq_true_iff_eq. rewrite !overlaps_true_iff.
  destruct Hb as [-> | ->]; simpl; lia.
Qed.

(** C5 as stated fails: a two-cell jump probe and the one-cell step probe it
    contains are reported as overlapping in one argument order only. *)
Lemma overlaps_asymmetric_on_probes :
  Wall.overlaps (Wall.init (0, 0) (2, 0) true) (Wall.init (0, 0) (1, 0) true) = true
  ∧ Wall.overlaps (Wall.init (0, 0) (1, 0) true) (Wall.init (0, 0) (2, 0) true) = false.
Proof. split; reflexivity. Qed.

(** C5 (amended): [overlaps] gives the same answer in both argument orders
    on every pair the engine compares or stores: two walls of the wall list,
    or a probe (of any shape) against a wall of the wall list. *)
Theorem overlaps_symmetric_on_engine_pairs (a b : Wall.t) :
  (engine_wall a ∧ engine_wall b)
  ∨ (probe a ∧ engine_wall b)
  ∨ (engine_wall a ∧ probe b) →
  Wall.overlaps a b = Wall.overlaps b a.
Proof.
  intros [[Ha Hb] | [[Ha Hb] | [Ha Hb]]].
  - by apply overlaps_sym_engine_engine.
  - by apply overlaps_sym_probe_engine.
  - symmetry. by apply overlaps_sym_probe_engine.
Qed.

Lemma overlaps_symmetric_on_engine_pairs_witness :
  Wall.overlaps (wall_at (0, 0) (1, 0)) (wall_at (1, 0) (1, 0))
  = Wall.overlaps (wall_at (1, 0) (1, 0)) (wall_at (0, 0) (1, 0)).
Proof.
  apply overlaps_symmetric_on_engine_pairs. left.
  split; eexists _, _; (split; [| reflexivity]);
    unfold DEFAULT; apply elem_of_cons; right; apply elem_of_cons; by left.
Defined.

Example game2_players :
  players game2
  = [Player.mk "darkgreen" (4, 0) 10 false (-1, 8);
     Player.mk "slateblue" (4, 8) 10 false (-1, 0)]
  ∧ cell (grid game2) 4 0 = Some 0%nat ∧ cell (grid game2) 4 8 = Some 1%nat
  ∧ walls game2 = [] ∧ currplayer game2 = 0 ∧ num_players game2 = 2.
Proof. vm_compute. done. Qed.

(** * Player: the goal test *)

Lemma setpos_won (p : Player.t) (q : pos) :
  Player.won (Player.setpos p q) = Player.at_goal q (Player.wins p) || Player.won p.
Proof. unfold Player.setpos; simpl. by destruct (Player.at_goal _ _). Qed.

(** C10: for a player built by [Player.__init__] and a cell of the board,
    [setpos] sets [won] exactly when the coordinate of the constrained axis
    equals the goal value: the first coordinate against [8 - start[0]] for a
    start cell with [start[1] == 4], the second coordinate against
    [8 - start[1]] otherwise.  The sentinel [-1] of the other axis never
    matches. *)
Theorem setpos_checks_one_axis (colour : string) (start : pos) (w : Z)
    (p : Player.t) (q : pos) :
  Player.init colour start w = Some p →
  0 ≤ q.1 ≤ 8 → 0 ≤ q.2 ≤ 8 →
  Player.won (Player.setpos p q) = true
  ↔ if start.2 =? 4 then q.1 = 8 - start.1 else q.2 = 8 - start.2.
Proof.
  intros Hp Hx Hy. rewrite setpos_won. unfold Player.init in Hp.
  destruct (start.2 =? 4).
  - injection Hp as <-. unfold Player.at_goal; simpl.
    rewrite orb_false_r, orb_true_iff, !Z.eqb_eq. lia.
  - destruct (start.1 =? 4); [| done].
    injection Hp as <-. unfold Player.at_goal; simpl.
    rewrite orb_false_r, orb_true_iff, !Z.eqb_eq. lia.
Qed.

Lemma setpos_checks_one_axis_witness :
  ∃ p, Player.init "darkgreen" (4, 0) 10 = Some p
       ∧ (Player.won (Player.setpos p (4, 8)) = true ↔ 8 = 8 - 0).
Proof.
  eexists. split; [reflexivity |].
  apply (setpos_checks_one_axis "darkgreen" (4, 0) 10 _ (4, 8));
    [reflexivity | simpl; lia | simpl; lia].
Defined.

(** * Board and Game: applying a move or a wall *)

Lemma py_index_in_range {A} (l : list A) (i : Z) :
  0 ≤ i < Z.of_nat (length l) → py_index l i = Some (Z.to_nat i).
Proof.
  intros H. unfold py_index.
  replace ((0 <=? i) && (i <? Z.of_nat (length l))) with true; [done |].
  symmetry. apply andb_true_iff. split; [apply Z.leb_le | apply Z.ltb_lt]; lia.
Qed.

Lemma in_board_iff (c : pos) : in_board c = true ↔ 0 ≤ c.1 < 9 ∧ 0 ≤ c.2 < 9.
Proof.
  unfold in_board. rewrite !andb_true_iff, !Z.leb_le, !Z.ltb_lt. lia.
Qed.

Lemma wf_grid_row (g : list (list (option nat))) (x : Z) :
  wf_grid g → 0 ≤ x < 9 →
  ∃ row, g !! Z.to_nat x = Some row ∧ length row = 9%nat.
Proof.
  intros [Hl Hr] Hx.
  destruct (lookup_lt_is_Some_2 g (Z.to_nat x)) as [row Hrow]; [lia |].
  exists row. split; [done |]. by eapply Hr.
Qed.

Lemma grid_get_cell (g : list (list (option nat))) (x y : Z) :
  wf_grid g → 0 ≤ x < 9 → 0 ≤ y < 9 →
  Board.grid_get g x y = Some (cell g x y).
Proof.
  intros Hg Hx Hy. destruct (wf_grid_row g x Hg Hx) as (row & Hrow & Hlen).
  unfold Board.grid_get, py_get, cell.
  rewrite py_index_in_range by (destruct Hg; lia). rewrite Hrow.
  rewrite py_index_in_range by lia.
  destruct (lookup_lt_is_Some_2 row (Z.to_nat y)) as [c Hc]; [lia |].
  by rewrite Hc.
Qed.

Lemma grid_set_cell (g : list (list (option nat))) (x y : Z) (v : option nat) :
  wf_grid g → 0 ≤ x < 9 → 0 ≤ y < 9 →
  ∃ g', Board.grid_set g x y v = Some g' ∧ wf_grid g'
        ∧ ∀ a b, 0 ≤ a < 9 → 0 ≤ b < 9 →
            cell g' a b = if decide ((a, b) = (x, y)) then v else cell g a b.
Proof.
  intros Hg Hx Hy. destruct (wf_grid_row g x Hg Hx) as (row & Hrow & Hlen).
  unfold Board.grid_set, py_get, py_set.
  rewrite !py_index_in_range by (destruct Hg; lia). rewrite Hrow.
  rewrite py_index_in_range by lia.
  eexists. split; [done |]. split.
  - destruct Hg as [Hl Hr]. split; [by rewrite length_insert |].
    intros i r [(_ & <- & _) | (_ & Hin)]%list_lookup_insert_Some.
    + by rewrite length_insert.
    + by eapply Hr.
  - intros a b Ha Hb. unfold cell.
    destruct (decide (a = x)) as [-> | Hne].
    + rewrite list_lookup_insert_eq by (destruct Hg; lia). rewrite Hrow.
      destruct (decide (b = y)) as [-> | Hne'].
      * rewrite list_lookup_insert_eq by lia. by rewrite decide_True.
      * rewrite list_lookup_insert_ne by lia. rewrite decide_False; [done | congruence].
    + rewrite list_lookup_insert_ne by lia. rewrite decide_False; [done | congruence].
Qed.

Lemma move_cells (st : store) (fr to : pos) :
  wf_grid (grid st) → in_board fr = true → in_board to = true →
  ∃ g, Board.move fr to st = Some (set_grid g st) ∧ wf_grid g
       ∧ ∀ c, in_board c = true →
           cell g c.1 c.2 =
             if decide (c = fr) then None
             else if decide (c = to) then cell (grid st) fr.1 fr.2
             else cell (grid st) c.1 c.2.
Proof.
  intros Hg [Hx Hy]%in_board_iff [Hdx Hdy]%in_board_iff.
  destruct fr as [x y], to as [dx dy]; simpl in *.
  unfold Board.move. rewrite grid_get_cell by done.
  destruct (grid_set_cell (grid st) dx dy (cell (grid st) x y) Hg Hdx Hdy)
    as (g1 & -> & Hg1 & Hc1).
  destruct (grid_set_cell g1 x y None Hg1 Hx Hy) as (g2 & -> & Hg2 & Hc2).
  exists g2. split; [done |]. split; [done |].
  intros [a b] [Ha Hb]%in_board_iff; simpl in *.
  rewrite Hc2, Hc1 by done. by repeat case_decide.
Qed.

Lemma py_index_insert {A} (l : list A) (k : nat) (a : A) (i : Z) :
  py_index (<[k := a]> l) i = py_index l i.
Proof. unfold py_index. by rewrite length_insert. Qed.

Lemma current_py_set (st : store) (player q : Player.t) :
  Game.current st = Some player →
  ∃ ps, py_set (players st) (currplayer st) q = Some ps
        ∧ py_get ps (currplayer st) = Some q.
Proof.
  unfold Game.current, py_get, py_set. intros H.
  destruct (py_index (players st) (currplayer st)) as [k |] eqn:Hk; [| done].
  eexists. split; [done |]. rewrite py_index_insert, Hk.
  apply list_lookup_insert_eq. by eapply lookup_lt_Some.
Qed.

(** C2 as stated fails: in a new two-player game the cell (0, 0) is not a
    legal destination of the pawn on (4, 0), and [make_move] moves the pawn
    there all the same. *)
Lemma make_move_applies_illegal_move :
  ((0, 0) ∉ Validator.possible_moves game2 (4, 0))
  ∧ (Player.position <$> Game.current game2) = Some (4, 0)
  ∧ ∃ st', Game.make_move "move" (0, 0) None game2 = Some st'
           ∧ cell (grid st') 0 0 = Some 0%nat
           ∧ cell (grid st') 4 0 = None
           ∧ (Player.position <$> players st') = [(0, 0); (4, 8)]
           ∧ currplayer st' = 1.
Proof.
  split; [apply (bool_decide_unpack _); by vm_compute |].
  split; [done |]. eexists. split; [by vm_compute |]. by vm_compute.
Qed.

(** C2 (amended): [make_move] with type ["move"] has no legality test and
    raises nothing of its own.  On a 9 x 9 grid, with the current player on
    the board, every destination cell of the board is accepted, member of
    [possible_moves] or not: the origin cell is emptied, the destination
    cell takes its content, the player is repositioned by [setpos], the wall
    list is kept and the turn advances. *)
Theorem make_move_move_unchecked (st : store) (player : Player.t) (to : pos)
    (orient : option pos) :
  wf_grid (grid st) →
  Game.current st = Some player →
  in_board (Player.position player) = true →
  in_board to = true →
  num_players st ≠ 0 →
  ∃ st', Game.make_move "move" to orient st = Some st'
    ∧ (∀ c, in_board c = true →
         cell (grid st') c.1 c.2 =
           if decide (c = Player.position player) then None
           else if decide (c = to)
                then cell (grid st) (Player.position player).1
                                    (Player.position player).2
                else cell (grid st) c.1 c.2)
    ∧ py_get (players st') (currplayer st) = Some (Player.setpos player to)
    ∧ walls st' = walls st
    ∧ currplayer st' = (currplayer st + 1) `mod` num_players st.
Proof.
  intros Hg Hcur Hfr Hto Hn.
  destruct (move_cells st _ _ Hg Hfr Hto) as (g & Hmove & _ & Hcells).
  destruct (current_py_set st player (Player.setpos player to) Hcur)
    as (ps & Hset & Hget).
  unfold Game.make_move; simpl. rewrite Hcur, Hmove; simpl. rewrite Hset.
  unfold Game.next_turn; simpl.
  apply Z.eqb_neq in Hn. rewrite Hn. eexists. split; [done |]. by simpl.
Qed.

Lemma make_move_move_unchecked_witness :
  ∃ st', Game.make_move "move" (0, 0) None game2 = Some st'
         ∧ walls st' = walls game2.
Proof.
  destruct (make_move_move_unchecked game2
              (Player.mk "darkgreen" (4, 0) 10 false (-1, 8)) (0, 0) None)
    as (st' & H1 & _ & _ & H2 & _).
  - split; [reflexivity |]. intros i row Hrow.
    do 9 (destruct i as [| i]; [by injection Hrow as <- |]). done.
  - reflexivity.
  - reflexivity.
  - reflexivity.
  - simpl. lia.
  - by exists st'.
Defined.

(** C6 as stated fails: the player to move has no wall left, and
    [make_move] places the wall all the same, leaving the budget at -1. *)
Lemma make_move_wall_ignores_budget :
  (Player.remaining_walls <$> Game.current spent2) = Some 0
  ∧ ∃ st', Game.make_move "wall" (0, 0) (Some (1, 0)) spent2 = Some st'
           ∧ walls st' = [wall_at (0, 0) (1, 0)]
           ∧ (Player.remaining_walls <$> players st') = [-1; 10]
           ∧ currplayer st' = 1.
Proof. split; [done |]. eexists. split; [by vm_compute |]. by vm_compute. Qed.

(** C6 (amended): the wall budget is tested by the query, not by the
    command.  [possible_walls] offers no wall start to a player whose budget
    is 0; [make_move] with type ["wall"] tests nothing and raises nothing of
    its own: it appends the wall, takes one from the budget of the player to
    move, whatever the budget is, and advances the turn. *)
Theorem wall_budget_tested_by_possible_walls_only (st : store)
    (player : Player.t) (p o : pos) :
  Game.current st = Some player →
  num_players st ≠ 0 →
  (Player.remaining_walls player = 0 →
   Validator.possible_walls player st = ([], st))
  ∧ ∃ st', Game.make_move "wall" p (Some o) st = Some st'
      ∧ walls st' = walls st ++ [wall_at p o]
      ∧ grid st' = grid st
      ∧ py_get (players st') (currplayer st) = Some (Player.place_wall player)
      ∧ Player.remaining_walls (Player.place_wall player)
        = Player.remaining_walls player - 1
      ∧ currplayer st' = (currplayer st + 1) `mod` num_players st.
Proof.
  intros Hcur Hn. split.
  - intros H0. unfold Validator.possible_walls. by rewrite H0.
  - set (st1 := Board.place_wall p o st).
    assert (Game.current st1 = Some player) as Hcur1
      by (destruct p, o; exact Hcur).
    destruct (current_py_set st1 player (Player.place_wall player) Hcur1)
      as (ps & Hset & Hget).
    unfold Game.make_move; simpl. fold st1. rewrite Hcur1, Hset.
    unfold Game.next_turn; simpl.
    assert (num_players st1 = num_players st) as -> by by destruct p, o.
    apply Z.eqb_neq in Hn. rewrite Hn. eexists. split; [done |].
    destruct p, o; by simpl.
Qed.

Lemma wall_budget_tested_by_possible_walls_only_witness :
  Validator.possible_walls (Player.mk "darkgreen" (4, 0) 0 false (-1, 8)) spent2
  = ([], spent2).
Proof.
  destruct (wall_budget_tested_by_possible_walls_only spent2
              (Player.mk "darkgreen" (4, 0) 0 false (-1, 8)) (0, 0) (1, 0))
    as [H _].
  - reflexivity.
  - simpl. lia.
  - apply H. reflexivity.
Defined.

(** * The searches touch [visited] only *)

Lemma set_visited_id (st : store) : set_visited (visited st) st = st.
Proof. by destruct st. Qed.

Lemma set_visited_twice (v v' : gset pos) (st : store) :
  set_visited v (set_visited v' st) = set_visited v st.
Proof. done. Qed.

Lemma any_overlap_walls (st1 st2 : store) (s e : pos) (fake : bool) :
  walls st1 = walls st2 → any_overlap st1 s e fake = any_overlap st2 s e fake.
Proof. unfold any_overlap. by intros ->. Qed.

Section way_loop.
Variable rec : pos → store → option (bool * store).
Hypothesis rec_store : ∀ e s1 s2,
  walls s1 = walls s2 → visited s1 = visited s2 →
  rec e s2 = onto s2 <$> rec e s1.

Lemma way_loop_store (node : pos) (dirs : list pos) (st1 st2 : store) :
  walls st1 = walls st2 → visited st1 = visited st2 →
  way_loop rec node dirs st2 = onto st2 <$> way_loop rec node dirs st1.
Proof.
  revert st1 st2. induction dirs as [| d dirs IH]; intros st1 st2 Hw Hv; simpl.
  - unfold onto; simpl. by rewrite Hv, set_visited_id.
  - rewrite <- Hv, <- (any_overlap_walls st1 st2) by done.
    destruct (_ && _); [| by apply IH].
    rewrite (rec_store _ st1 st2) by done.
    pose proof (rec_store (node.1 + d.1, node.2 + d.2) st1 st1 eq_refl eq_refl) as Hself.
    destruct (rec _ st1) as [[[] s1'] |]; simpl in *; [done | | done].
    injection Hself as Hs1'.
    rewrite (IH s1' (set_visited (visited s1') st2)).
    + destruct (way_loop rec node dirs s1') as [[b s] |]; [| done]. done.
    + rewrite Hs1'. simpl. done.
    + done.
Qed.
End way_loop.

Lemma way_exists_fuel_store (n : nat) (node dest : pos) (st1 st2 : store) :
  walls st1 = walls st2 → visited st1 = visited st2 →
  way_exists_fuel n node dest st2 = onto st2 <$> way_exists_fuel n node dest st1.
Proof.
  revert node st1 st2. induction n as [| n IH]; intros node st1 st2 Hw Hv; [done |].
  cbn [way_exists_fuel]. destruct (is_goal node dest).
  - unfold onto; simpl. by rewrite Hv, set_visited_id.
  - etrans.
    { apply (way_loop_store _ (λ e s1 s2, IH e s1 s2) node DEFAULT
               (visit node st1).2 (visit node st2).2); simpl; [done | by rewrite Hv]. }
    by destruct (way_loop _ _ _ _) as [[b s] |].
Qed.

Lemma way_exists_store (node dest : pos) (st1 st2 : store) :
  walls st1 = walls st2 → visited st1 = visited st2 →
  way_exists node dest st2 = onto st2 (way_exists node dest st1).
Proof.
  intros Hw Hv. unfold way_exists.
  rewrite (way_exists_fuel_store _ _ _ st1 st2) by done.
  destruct (way_exists_fuel _ _ _ st1); simpl; [done |].
  unfold onto; simpl. by rewrite Hv, set_visited_id.
Qed.

(** [way_exists] leaves every field but [visited] as it was. *)
Lemma way_exists_frame (node dest : pos) (st : store) :
  (way_exists node dest st).2
  = set_visited (visited (way_exists node dest st).2) st.
Proof. by rewrite (way_exists_store node dest st st) at 1. Qed.

(** * Wall placement queries *)

Lemma foldM_visited_only {A B} (f : B → A → M A) (g : A → B → A)
    (st : store) (l : list B) (a : A) :
  (∀ b a, touches_visited_only (f b a) st (g a b)) →
  touches_visited_only (foldM f l a) st (fold_left g l a).
Proof.
  intros Hf. revert a. induction l as [| b l IH]; intros a v; simpl.
  - by exists v.
  - unfold bind. destruct (Hf b a v) as [v1 ->]. apply IH.
Qed.

Lemma connected_set_visited (st : store) (v : gset pos) (player : Player.t) :
  connected (set_visited v st) player = connected st player.
Proof. done. Qed.

Lemma all_connected_spec (st : store) (ps : list Player.t) :
  touches_visited_only (all_connected ps) st (forallb (connected st) ps).
Proof.
  induction ps as [| player ps IH]; intros v; simpl.
  - by exists v.
  - unfold bind, reset. fold (connected st player).
    change (set_visited ∅ (set_visited v st)) with (reset st).2.
    pose proof (way_exists_frame (Player.position player) (Player.wins player)
                  (reset st).2) as Hfr.
    unfold connected.
    destruct (way_exists _ _ _) as [b s]; simpl in *. rewrite Hfr.
    destruct b; simpl.
    + apply (IH (visited s)).
    + by eexists.
Qed.

Lemma orient_dir_spec (st : store) (p d : pos) (acc : list pos) :
  touches_visited_only (orient_dir p d acc) st
    (if orient_ok st p d then acc ++ [d] else acc).
Proof.
  intros v. unfold orient_dir, orient_ok, in_lattice_ext.
  change (any_overlap (set_visited v st) p ?e false) with (any_overlap st p e false).
  destruct (_ && _ && _ && _); simpl; [| by exists v].
  destruct (any_overlap st p _ false); simpl; [by exists v |].
  unfold bind, push_wall, pop_wall; simpl.
  destruct (all_connected_spec (push_wall (wall_at p d) st).2 (players st) v)
    as [v' Hv'].
  unfold push_wall, wall_at in Hv'; simpl in Hv'.
  change (set_walls ?w (set_visited v st)) with (set_visited v (set_walls w st)).
  rewrite Hv'. simpl. exists v'. unfold ret. f_equal.
  unfold set_walls, set_visited; simpl. by rewrite removelast_last.
Qed.

Lemma fold_left_filter {A} (f : A → bool) (l acc : list A) :
  fold_left (λ acc d, if f d then acc ++ [d] else acc) l acc
  = acc ++ List.filter f l.
Proof.
  revert acc. induction l as [| d l IH]; intros acc; simpl.
  - by rewrite app_nil_r.
  - rewrite IH. destruct (f d); [| done]. by rewrite <- app_assoc.
Qed.

(** [possible_orients] keeps the directions that pass [orient_ok], in the
    order of [DEFAULT], and leaves every field but [visited] as it was. *)
Lemma possible_orients_spec (st : store) (p : pos) :
  touches_visited_only (possible_orients p) st
    (List.filter (orient_ok st p) DEFAULT).
Proof.
  intros v. unfold possible_orients.
  destruct (foldM_visited_only (orient_dir p)
              (λ acc d, if orient_ok st p d then acc ++ [d] else acc)
              st DEFAULT [] (λ b a, orient_dir_spec st p b a) v) as [v' ->].
  exists v'. by rewrite fold_left_filter.
Qed.

Lemma touches_visited_only_run {A} (m : M A) (st : store) (a : A) :
  touches_visited_only m st a →
  (m st).1 = a ∧ (m st).2 = set_visited (visited (m st).2) st.
Proof.
  intros H. destruct (H (visited st)) as [v' Hv']. rewrite set_visited_id in Hv'.
  by rewrite Hv'.
Qed.

(** C1: every direction that [possible_orients] returns for a lattice point
    keeps every player connected: with that wall appended to the wall list
    and [visited] reset, [way_exists] answers [True] from the position of
    each player to its goal.  A wall that cuts some player off is therefore
    never returned, even within bounds and free of overlap. *)
Theorem possible_orients_keeps_players_connected (st : store) (p d : pos)
    (player : Player.t) :
  d ∈ (possible_orients p st).1 →
  player ∈ players st →
  (way_exists (Player.position player) (Player.wins player)
     (reset (push_wall (wall_at p d) st).2).2).1 = true.
Proof.
  intros Hd Hplayer.
  destruct (touches_visited_only_run _ _ _ (possible_orients_spec st p)) as [Hv _].
  rewrite Hv in Hd. apply list_elem_of_In, filter_In in Hd as [_ Hok].
  unfold orient_ok in Hok. apply andb_true_iff in Hok as [_ Hall].
  rewrite forallb_forall in Hall. apply list_elem_of_In in Hplayer.
  exact (Hall player Hplayer).
Qed.

Lemma possible_orients_keeps_players_connected_witness :
  (way_exists (4, 0) (-1, 8) (reset (push_wall (wall_at (0, 0) (1, 0)) game2).2).2).1
  = true.
Proof.
  apply (possible_orients_keeps_players_connected game2 (0, 0) (1, 0)
           (Player.mk "darkgreen" (4, 0) 10 false (-1, 8))).
  - apply (bool_decide_unpack _). by vm_compute.
  - apply (bool_decide_unpack _). by vm_compute.
Defined.

(** C8 as stated fails: [way_exists] does not reset [visited] itself.  With
    one wall under the cells (0, 0) and (1, 0), a first call from (0, 0)
    finds the goal row; a second call with the same arguments, on the same
    board, finds the only open neighbour already visited and answers
    [False]. *)
Lemma way_exists_second_call_differs :
  let st1 := (reset corner_store).2 in
  let st2 := (way_exists (0, 0) (-1, 8) st1).2 in
  (way_exists (0, 0) (-1, 8) st1).1 = true
  ∧ walls st2 = walls st1 ∧ grid st2 = grid st1 ∧ players st2 = players st1
  ∧ (way_exists (0, 0) (-1, 8) st2).1 = false.
Proof. by vm_compute. Qed.

(** C8 (amended): the visited set is reset by the caller, not by
    [way_exists]: [possible_orients] calls [reset] before each call.  A call
    that follows [reset] depends on the wall list only: on two stores with
    the same walls it returns the same boolean, whatever their visited sets,
    grids and players are. *)
Theorem way_exists_after_reset_depends_on_walls (st1 st2 : store)
    (node dest : pos) :
  walls st1 = walls st2 →
  (way_exists node dest (reset st1).2).1 = (way_exists node dest (reset st2).2).1.
Proof.
  intros Hw.
  by rewrite (way_exists_store node dest (reset st1).2 (reset st2).2).
Qed.

Lemma way_exists_after_reset_depends_on_walls_witness :
  (way_exists (0, 0) (-1, 8) (reset corner_store).2).1
  = (way_exists (0, 0) (-1, 8)
       (reset (way_exists (0, 0) (-1, 8) (reset corner_store).2).2).2).1.
Proof.
  apply way_exists_after_reset_depends_on_walls.
  rewrite way_exists_frame. reflexivity.
Defined.

(** * The list of all walls *)

Lemma fold_left_app_flat_map {A B} (f : A → list B) (l : list A) (acc : list B) :
  fold_left (λ acc a, acc ++ f a) l acc = acc ++ flat_map f l.
Proof.
  revert acc. induction l as [| a l IH]; intros acc; simpl.
  - by rewrite app_nil_r.
  - by rewrite IH, <- app_assoc.
Qed.

Lemma all_possible_walls_spec (st : store) :
  touches_visited_only all_possible_walls st
    (flat_map (λ p, map (λ d, (p, d)) (List.filter (orient_ok st p) DEFAULT))
              lattice).
Proof.
  intros v. unfold all_possible_walls.
  destruct (foldM_visited_only
              (λ p acc, let* os := possible_orients p in
                        ret (acc ++ map (λ d, (p, d)) os))
              (λ acc p, acc ++ map (λ d, (p, d))
                                   (List.filter (orient_ok st p) DEFAULT))
              st lattice []) with (v := v) as [v' ->].
  - intros p acc v0. unfold bind.
    destruct (possible_orients_spec st p v0) as [v1 ->]. by exists v1.
  - exists v'. by rewrite fold_left_app_flat_map.
Qed.

Lemma elem_of_all_possible_walls (st : store) (p d : pos) :
  (p, d) ∈ (all_possible_walls st).1
  ↔ p ∈ lattice ∧ d ∈ DEFAULT ∧ orient_ok st p d = true.
Proof.
  destruct (touches_visited_only_run _ _ _ (all_possible_walls_spec st)) as [-> _].
  rewrite list_elem_of_In, in_flat_map. split.
  - intros (p' & Hp' & Hin). apply in_map_iff in Hin as (d' & [= <- <-] & Hd').
    apply filter_In in Hd' as [Hd' Hok].
    by rewrite !list_elem_of_In.
  - intros (Hp & Hd & Hok). exists p. rewrite <- list_elem_of_In. split; [done |].
    apply in_map_iff. exists d. split; [done |].
    apply filter_In. by rewrite <- list_elem_of_In.
Qed.

Lemma elem_of_lattice (p : pos) : p ∈ lattice ↔ 0 ≤ p.1 < 8 ∧ 0 ≤ p.2 < 8.
Proof.
  unfold lattice. rewrite list_elem_of_In, in_flat_map. split.
  - intros (y & Hy & Hin). apply in_map_iff in Hin as (x & <- & Hx).
    apply list_elem_of_In, elem_of_seqZ in Hy, Hx. simpl. lia.
  - intros [Hx Hy]. exists p.2. split.
    + apply list_elem_of_In, elem_of_seqZ. lia.
    + apply in_map_iff. exists p.1. split; [by destruct p |].
      apply list_elem_of_In, elem_of_seqZ. lia.
Qed.

Lemma elem_of_DEFAULT (d : pos) :
  d ∈ DEFAULT ↔ d = (-1, 0) ∨ d = (1, 0) ∨ d = (0, -1) ∨ d = (0, 1).
Proof.
  unfold DEFAULT. rewrite !elem_of_cons, elem_of_nil. tauto.
Qed.

(** The four walls at a lattice point, after canonicalization. *)
Lemma wall_at_west (x y : Z) :
  wall_at (x, y) (-1, 0) = Wall.mk (2 * x - 3, 2 * y + 1) (2 * x + 1, 2 * y + 1).
Proof.
  unfold wall_at, Wall.init; simpl.
  replace (_ || _) with true by (symmetry; apply orb_true_iff; left; lia).
  f_equal; f_equal; lia.
Qed.
Lemma wall_at_east (x y : Z) :
  wall_at (x, y) (1, 0) = Wall.mk (2 * x + 1, 2 * y + 1) (2 * x + 5, 2 * y + 1).
Proof.
  unfold wall_at, Wall.init; simpl.
  replace (_ || _) with false by (symmetry; apply orb_false_iff; split; lia).
  f_equal; f_equal; lia.
Qed.
Lemma wall_at_north (x y : Z) :
  wall_at (x, y) (0, -1) = Wall.mk (2 * x + 1, 2 * y - 3) (2 * x + 1, 2 * y + 1).
Proof.
  unfold wall_at, Wall.init; simpl.
  replace (_ || _) with true by (symmetry; apply orb_true_iff; right; lia).
  f_equal; f_equal; lia.
Qed.
Lemma wall_at_south (x y : Z) :
  wall_at (x, y) (0, 1) = Wall.mk (2 * x + 1, 2 * y + 1) (2 * x + 1, 2 * y + 5).
Proof.
  unfold wall_at, Wall.init; simpl.
  replace (_ || _) with false by (symmetry; apply orb_false_iff; split; lia).
  f_equal; f_equal; lia.
Qed.

Lemma wall_at_far_end (p d : pos) :
  d ∈ DEFAULT → wall_at (far_end p d) (opposite d) = wall_at p d.
Proof.
  destruct p as [x y].
  intros [-> | [-> | [-> | ->]]]%elem_of_DEFAULT; unfold far_end, opposite;
    cbn [fst snd].
  - rewrite wall_at_west. change (- -1, - 0) with (1, 0). rewrite wall_at_east.
    f_equal; f_equal; lia.
  - rewrite wall_at_east. change (- 1, - 0) with (-1, 0). rewrite wall_at_west.
    f_equal; f_equal; lia.
  - rewrite wall_at_north. change (- 0, - -1) with (0, 1). rewrite wall_at_south.
    f_equal; f_equal; lia.
  - rewrite wall_at_south. change (- 0, - 1) with (0, -1). rewrite wall_at_north.
    f_equal; f_equal; lia.
Qed.

Lemma wall_at_inj (p d p' d' : pos) :
  d ∈ DEFAULT → d' ∈ DEFAULT → wall_at p' d' = wall_at p d →
  (p', d') = (p, d) ∨ (p', d') = (far_end p d, opposite d).
Proof.
  destruct p as [x y], p' as [x' y']. unfold far_end, opposite; cbn [fst snd].
  intros [-> | [-> | [-> | ->]]]%elem_of_DEFAULT
         [-> | [-> | [-> | ->]]]%elem_of_DEFAULT;
    rewrite ?wall_at_west, ?wall_at_east, ?wall_at_north, ?wall_at_south;
    intros [= ? ? ? ?]; simpl;
    first [ left; f_equal; f_equal; lia | right; f_equal; f_equal; lia | lia ].
Qed.

Lemma orient_ok_unfold (st : store) (p d : pos) :
  orient_ok st p d
  = in_lattice_ext (far_end p d)
    && negb (existsb (Wall.overlaps (wall_at p d)) (walls st))
    && forallb (connected (push_wall (wall_at p d) st).2) (players st).
Proof. done. Qed.

Lemma far_end_far_end (p d : pos) : far_end (far_end p d) (opposite d) = p.
Proof. destruct p, d. unfold far_end, opposite; simpl. f_equal; lia. Qed.

Lemma orient_ok_far_end (st : store) (p d : pos) :
  d ∈ DEFAULT → p ∈ lattice → far_end p d ∈ lattice →
  orient_ok st (far_end p d) (opposite d) = orient_ok st p d.
Proof.
  intros Hd Hp Hq. rewrite !orient_ok_unfold.
  rewrite far_end_far_end, wall_at_far_end by done.
  apply elem_of_lattice in Hp, Hq.
  replace (in_lattice_ext p) with true; [replace (in_lattice_ext (far_end p d)) with true; [done |] |];
    symmetry; unfold in_lattice_ext;
    rewrite !andb_true_iff, !Z.leb_le, !Z.ltb_lt; lia.
Qed.

Lemma opposite_DEFAULT (d : pos) : d ∈ DEFAULT → opposite d ∈ DEFAULT.
Proof.
  rewrite !elem_of_DEFAULT. intros [-> | [-> | [-> | ->]]]; unfold opposite; simpl; tauto.
Qed.

(** C9 as stated fails: in a new game [all_possible_walls] lists the wall
    between the lattice points (0, 0) and (2, 0) twice, once from each end. *)
Lemma all_possible_walls_lists_a_wall_twice :
  ((0, 0), (1, 0)) ∈ (all_possible_walls game2).1
  ∧ ((2, 0), (-1, 0)) ∈ (all_possible_walls game2).1
  ∧ wall_at (0, 0) (1, 0) = wall_at (2, 0) (-1, 0).
Proof.
  rewrite !elem_of_all_possible_walls.
  repeat split; try (apply (bool_decide_unpack _); by vm_compute); by vm_compute.
Qed.

(** C9 (amended): [all_possible_walls] merges nothing.  At one lattice
    point the four directions denote four different segments; two entries
    denote the same segment only if they are its two end points, each with
    the direction towards the other; and whenever the far end of a listed
    wall is a lattice point, that second entry is listed too. *)
Theorem all_possible_walls_lists_both_ends (st : store) (p d : pos) :
  (p, d) ∈ (all_possible_walls st).1 →
  (∀ p' d', (p', d') ∈ (all_possible_walls st).1 →
            wall_at p' d' = wall_at p d →
            (p', d') = (p, d) ∨ (p', d') = (far_end p d, opposite d))
  ∧ (far_end p d ∈ lattice →
     (far_end p d, opposite d) ∈ (all_possible_walls st).1
     ∧ wall_at (far_end p d) (opposite d) = wall_at p d).
Proof.
  intros (Hp & Hd & Hok)%elem_of_all_possible_walls. split.
  - intros p' d' (_ & Hd' & _)%elem_of_all_possible_walls Heq.
    by apply wall_at_inj.
  - intros Hq. split; [| by apply wall_at_far_end].
    apply elem_of_all_possible_walls. split; [done |].
    split; [by apply opposite_DEFAULT |]. by rewrite orient_ok_far_end.
Qed.

Lemma all_possible_walls_lists_both_ends_witness :
  ((2, 0), (-1, 0)) ∈ (all_possible_walls game2).1.
Proof.
  apply (all_possible_walls_lists_both_ends game2 (0, 0) (1, 0)).
  - apply elem_of_all_possible_walls.
    repeat split; try (apply (bool_decide_unpack _); by vm_compute); by vm_compute.
  - apply (bool_decide_unpack _). by vm_compute.
Defined.

(** * The speculative wall is always removed *)

Lemma touches_visited_only_keeps {A} (m : M A) (st : store) (a : A) :
  touches_visited_only m st a → keeps_store m st.
Proof. intros H v. destruct (H v) as [v' Hv']. eauto. Qed.

Lemma foldM_keeps_store {A B} (f : B → A → M A) (st : store) (l : list B) (a : A) :
  (∀ b a, keeps_store (f b a) st) → keeps_store (foldM f l a) st.
Proof.
  intros Hf. revert a. induction l as [| b l IH]; intros a v; simpl.
  - by exists a, v.
  - unfold bind. destruct (Hf b a v) as (a1 & v1 & ->). apply IH.
Qed.

Lemma keeps_store_run {A} (m : M A) (st : store) :
  keeps_store m st → (m st).2 = set_visited (visited (m st).2) st.
Proof.
  intros H. destruct (H (visited st)) as (a & v' & Hv').
  rewrite set_visited_id in Hv'. by rewrite Hv'.
Qed.

Lemma bfs_push_keeps (depth : Z) (moves : list pos) (q : list (pos * Z))
    (st : store) (v : gset pos) :
  ∃ q' v', bfs_push depth moves q (set_visited v st) = (q', set_visited v' st).
Proof.
  unfold bfs_push. revert q v. induction moves as [| m moves IH]; intros q v; simpl.
  - by exists q, v.
  - destruct (bool_decide _); apply IH.
Qed.

Lemma bfs_loop_keeps (n : nat) (wins : pos) (q : list (pos * Z)) (st : store)
    (v : gset pos) (r : Z * store) :
  bfs_loop n wins q (set_visited v st) = Some r → ∃ v', r.2 = set_visited v' st.
Proof.
  revert q v. induction n as [| n IH]; intros q v; [done |]. simpl.
  destruct q as [| [curr depth] q]; [intros [= <-]; by exists v |].
  destruct (is_goal curr wins); [intros [= <-]; by exists v |].
  change (possible_moves (set_visited v st) curr) with (possible_moves st curr).
  destruct (bfs_push_keeps depth (possible_moves st curr) q st v) as (q' & v' & ->).
  apply IH.
Qed.

Lemma bfs_keeps (p wins : pos) (st : store) : keeps_store (bfs p wins) st.
Proof.
  intros v. unfold bfs.
  change (visit p (reset (set_visited v st)).2).2
    with (set_visited ({[p]} ∪ ∅) st).
  destruct (bfs_loop FUEL wins [(p, 0)] _) as [r |] eqn:Hr.
  - apply (bfs_loop_keeps _ _ _ st) in Hr as [v' Hv'].
    exists r.1, v'. destruct r; simpl in *. by rewrite Hv'.
  - by eexists _, _.
Qed.

Lemma others_score_keeps (my_pos : pos) (ps : list Player.t) (st : store) :
  keeps_store (others_score my_pos ps) st.
Proof.
  apply foldM_keeps_store. intros player score v.
  destruct (bool_decide _).
  - unfold bind. destruct (bfs_keeps (Player.position player) (Player.wins player) st v)
      as (d & v' & ->). by eexists _, _.
  - by eexists _, _.
Qed.

Lemma best_wall_step_keeps (my_pos win : pos) (cand : pos * pos)
    (best : option (pos * pos) * Z) (st : store) :
  keeps_store (best_wall_step my_pos win cand best) st.
Proof.
  intros v. destruct cand as [p dir]. unfold best_wall_step, bind, push_wall, pop_wall.
  set (w := Wall.init p _ false).
  change (set_walls ?ws (set_visited v st)) with (set_visited v (set_walls ws st)).
  simpl.
  destruct (others_score_keeps my_pos (players st) (set_walls (walls st ++ [w]) st) v)
    as (score & v1 & ->).
  destruct (bfs_keeps my_pos win (set_walls (walls st ++ [w]) st) v1)
    as (mine & v2 & ->).
  eexists _, v2. unfold ret. f_equal.
  unfold set_walls, set_visited; simpl. by rewrite removelast_last.
Qed.

Lemma best_wall_keeps (my_pos win : pos) (st : store) :
  keeps_store (best_wall my_pos win) st.
Proof.
  intros v. unfold best_wall, bind.
  destruct (all_possible_walls_spec st v) as [v1 ->].
  set (all_w := flat_map _ lattice).
  destruct (foldM_keeps_store (best_wall_step my_pos win) st all_w (None, -1000)
              (λ b a, best_wall_step_keeps my_pos win b a st) v1)
    as (best & v2 & ->).
  by eexists _, _.
Qed.

(** C3: [possible_orients] and [best_wall] return with the wall list they
    were called with: each candidate wall appended for a check is deleted
    again, whether the check passed or failed. *)
Theorem speculative_wall_is_removed (st : store) (p my_pos win : pos) :
  walls (possible_orients p st).2 = walls st
  ∧ walls (best_wall my_pos win st).2 = walls st.
Proof.
  split.
  - rewrite (keeps_store_run _ _
               (touches_visited_only_keeps _ _ _ (possible_orients_spec st p))).
    done.
  - by rewrite (keeps_store_run _ _ (best_wall_keeps my_pos win st)).
Qed.

(** * Side steps *)

(** [make_move] neither reads nor writes the visited set of the validator. *)
Lemma make_move_set_visited (type : string) (p : pos) (o : option pos)
    (v : gset pos) (st : store) :
  Game.make_move type p o (set_visited v st)
  = set_visited v <$> Game.make_move type p o st.
Proof.
  unfold Game.make_move.
  destruct (String.eqb type "wall").
  - destruct o as [o |]; [| done]. destruct p as [x y], o as [dx dy].
    unfold Board.place_wall, Game.current; simpl.
    destruct (py_get _ _); [| done]. simpl.
    destruct (py_set _ _ _); [| done]. simpl.
    unfold Game.next_turn; simpl. by destruct (_ =? 0).
  - destruct (String.eqb type "move"); [| done].
    unfold Game.current; simpl.
    destruct (py_get _ _) as [player |]; [| done].
    unfold Board.move. destruct (Player.position player) as [x y], p as [dx dy]; simpl.
    destruct (Board.grid_get _ _ _); [| done].
    destruct (Board.grid_set _ _ _ _); [| done].
    destruct (Board.grid_set _ _ _ _); [| done]. simpl.
    destruct (py_set _ _ _); [| done]. simpl.
    unfold Game.next_turn; simpl. by destruct (_ =? 0).
Qed.

Lemma possible_walls_spec (player : Player.t) (st : store) :
  touches_visited_only (possible_walls player) st
    (if Player.remaining_walls player =? 0 then []
     else List.filter (has_orient st) lattice).
Proof.
  intros v. unfold possible_walls.
  destruct (_ =? 0); [by exists v |].
  destruct (foldM_visited_only
              (λ p acc, let* os := possible_orients p in
                        ret (match os with [] => acc | _ :: _ => acc ++ [p] end))
              (λ acc p, if has_orient st p then acc ++ [p] else acc)
              st lattice []) with (v := v) as [v' ->].
  - intros p acc v0. unfold bind.
    destruct (possible_orients_spec st p v0) as [v1 ->]. exists v1.
    unfold has_orient.
    destruct (List.filter (orient_ok st p) DEFAULT); reflexivity.
  - exists v'. by rewrite fold_left_filter.
Qed.

Lemma turn_place_wall (st : store) (player : Player.t) (p d : pos) :
  Game.current st = Some player →
  Player.remaining_walls player ≠ 0 →
  p ∈ lattice → d ∈ DEFAULT → orient_ok st p d = true →
  ∃ v, turn (PlaceWall p d) st
       = set_visited v <$> Game.make_move "wall" p (Some d) st.
Proof.
  intros Hcur Hbudget Hp Hd Hok. unfold turn, Game.possible_walls. rewrite Hcur.
  destruct (possible_walls_spec player st (visited st)) as [v1 Hv1].
  rewrite set_visited_id in Hv1. rewrite Hv1.
  apply Z.eqb_neq in Hbudget. rewrite Hbudget.
  assert (d ∈ List.filter (orient_ok st p) DEFAULT) as Hdin.
  { apply list_elem_of_In, filter_In. by rewrite <- list_elem_of_In. }
  rewrite bool_decide_eq_true_2.
  - destruct (possible_orients_spec st p v1) as [v2 ->].
    rewrite bool_decide_eq_true_2 by done.
    exists v2. apply make_move_set_visited.
  - apply list_elem_of_In, filter_In. rewrite <- list_elem_of_In. split; [done |].
    unfold has_orient.
    destruct (List.filter (orient_ok st p) DEFAULT) eqn:Hf; [| done].
    by apply elem_of_nil in Hdin.
Qed.

Lemma turn_move_set_visited (to : pos) (v : gset pos) (st : store) :
  turn (Move to) (set_visited v st) = set_visited v <$> turn (Move to) st.
Proof.
  unfold turn.
  change (Game.possible_moves (set_visited v st)) with (Game.possible_moves st).
  destruct (Game.possible_moves st) as [ms |]; [| done].
  destruct (bool_decide _); [| done]. apply make_move_set_visited.
Qed.

Lemma play_moves_set_visited (tos : list pos) (v : gset pos) (st : store) :
  play (map Move tos) (set_visited v st)
  = set_visited v <$> play (map Move tos) st.
Proof.
  revert st. induction tos as [| to tos IH]; intros st; [done |].
  cbn [map play]. rewrite turn_move_set_visited.
  destruct (turn (Move to) st) as [st' |]; [| done]. apply IH.
Qed.

Lemma side_step_store_played :
  (set_visited ∅ <$> play side_step_play game2) = Some side_step_store.
Proof.
  change side_step_play
    with (Move (4, 1) :: PlaceWall (4, 7) (0, -1)
          :: map Move [(4, 2); (3, 8); (4, 3); (4, 8); (4, 4); (3, 8);
                       (4, 5); (4, 8); (4, 6); (3, 8); (4, 7); (4, 8)]).
  pose (s1 := default game2 (turn (Move (4, 1)) game2)).
  assert (turn (Move (4, 1)) game2 = Some s1) as H1 by by vm_compute.
  pose (s2 := default game2
                (Game.make_move "wall" (4, 7) (Some (0, -1)) s1)).
  assert (Game.make_move "wall" (4, 7) (Some (0, -1)) s1 = Some s2) as H2
    by by vm_compute.
  destruct (turn_place_wall s1 (Player.mk "slateblue" (4, 8) 10 false (-1, 0))
              (4, 7) (0, -1)) as [v Hv].
  - by vm_compute.
  - done.
  - apply elem_of_lattice. simpl. lia.
  - apply elem_of_DEFAULT. tauto.
  - by vm_compute.
  - cbn [play]. rewrite H1, Hv, H2. cbn [fmap option_fmap option_map].
    rewrite play_moves_set_visited.
    destruct (play _ s2) as [s3 |] eqn:H3; vm_compute in H3; [| done].
    injection H3 as <-. by vm_compute.
Qed.

Lemma side_step_store_fields :
  walls side_step_store = [wall_at (4, 7) (0, -1)]
  ∧ (Player.position <$> players side_step_store) = [(4, 7); (4, 8)]
  ∧ currplayer side_step_store = 0
  ∧ cell (grid side_step_store) 4 7 = Some 0%nat
  ∧ cell (grid side_step_store) 4 8 = Some 1%nat.
Proof. by vm_compute. Qed.

(** C4 fails on the code: the pawn on (4, 7) faces the pawn on (4, 8), the
    straight jump leaves the board, the side cell (5, 8) is on the board and
    empty, and no wall blocks the edge between (4, 8) and (5, 8); yet
    [possible_moves] does not offer (5, 8), because the probe of the source
    runs from the moving pawn to the side cell and meets the wall to the
    right of the moving pawn.  The mirrored side step to (3, 8) is offered. *)
Theorem side_step_missing_from_possible_moves :
  occupied (grid side_step_store) 4 8 = true
  ∧ in_board (4, 9) = false
  ∧ in_board (5, 8) = true
  ∧ occupied (grid side_step_store) 5 8 = false
  ∧ any_overlap side_step_store (4, 8) (5, 8) true = false
  ∧ ((5, 8) ∉ possible_moves side_step_store (4, 7))
  ∧ possible_moves side_step_store (4, 7) = [(3, 7); (4, 6); (3, 8)].
Proof.
  do 5 (split; [by vm_compute |]).
  split; [| by vm_compute].
  apply (bool_decide_unpack _). by vm_compute.
Qed.

(** The sibling branch does what the claim says: for the side step to the
    left of a pawn below ([(x - 1, y + 1)]), the probe of the source and the
    probe of the edge between the neighbour and the side cell meet the same
    walls of the wall list. *)
Lemma side_step_left_probe_is_edge_probe (x y : Z) (w : Wall.t) :
  engine_wall w →
  Wall.overlaps (Wall.init (x, y) (x - 1, y + 1) true) w
  = Wall.overlaps (Wall.init (x, y + 1) (x - 1, y + 1) true) w.
Proof.
  intros (a & b & Hw)%engine_wall_shape.
  unfold Wall.init; simpl.
  replace ((2 * (x - 1) <? 2 * x) || (2 * (y + 1) <? 2 * y)) with true
    by (symmetry; apply orb_true_iff; left; lia).
  replace ((2 * (x - 1) <? 2 * x) || (2 * (y + 1) <? 2 * (y + 1))) with true
    by (symmetry; apply orb_true_iff; left; lia).
  apply eq_true_iff_eq. rewrite !overlaps_true_iff.
  destruct Hw as [-> | ->]; simpl; lia.
Qed.

(** The branch of the failing input does not: for the side step to the
    right ([(x + 1, y + 1)]) the probe of the source meets the wall to the
    right of the moving pawn, which the edge probe does not meet. *)
Lemma side_step_right_probe_is_not_edge_probe :
  Wall.overlaps (Wall.init (4, 7) (5, 8) true) (wall_at (4, 7) (0, -1)) = true
  ∧ Wall.overlaps (Wall.init (4, 8) (5, 8) true) (wall_at (4, 7) (0, -1)) = false.
Proof. by vm_compute. Qed.

(** * The searches terminate within [FUEL] *)

Lemma size_board : size board = 81%nat.
Proof. by vm_compute. Qed.

Lemma in_board_elem_of (c : pos) : in_board c = true → c ∈ board.
Proof.
  intros [Hx Hy]%in_board_iff. unfold board.
  apply elem_of_list_to_set, list_elem_of_In, in_flat_map.
  exists c.1. split.
  - apply list_elem_of_In, elem_of_seqZ. lia.
  - apply in_map_iff. exists c.2. split; [by destruct c |].
    apply list_elem_of_In, elem_of_seqZ. lia.
Qed.

Lemma unvisited_le (v : gset pos) : (unvisited v ≤ 81)%nat.
Proof.
  unfold unvisited. rewrite <- size_board. apply subseteq_size.
  apply subseteq_difference_l. done.
Qed.

Lemma unvisited_mono (v v' : gset pos) :
  v ⊆ v' → (unvisited v' ≤ unvisited v)%nat.
Proof. intros H. unfold unvisited. apply subseteq_size. set_solver. Qed.

Lemma unvisited_visit (c : pos) (v : gset pos) :
  c ∈ board → c ∉ v → (unvisited ({[c]} ∪ v) < unvisited v)%nat.
Proof.
  intros Hc Hv. unfold unvisited. apply subset_size. split; [set_solver |].
  intros H. assert (c ∈ board ∖ ({[c]} ∪ v)) by (apply H; set_solver).
  set_solver.
Qed.

Section way_loop_total.
Variable rec : pos → store → option (bool * store).
Variable n : nat.
Hypothesis rec_some : ∀ e s,
  in_board e = true → e ∉ visited s → (unvisited (visited s) < n)%nat →
  ∃ b s', rec e s = Some (b, s') ∧ visited s ⊆ visited s'.

Lemma way_loop_some (node : pos) (dirs : list pos) (st : store) :
  (unvisited (visited st) < n)%nat →
  ∃ b st', way_loop rec node dirs st = Some (b, st') ∧ visited st ⊆ visited st'.
Proof.
  revert st. induction dirs as [| d dirs IH]; intros st Hn; simpl.
  - by exists false, st.
  - destruct (in_board _) eqn:Hin; simpl; [| by apply IH].
    destruct (bool_decide _) eqn:Hvis; simpl; [by apply IH |].
    destruct (any_overlap _ _ _ _); simpl; [by apply IH |].
    apply bool_decide_eq_false in Hvis.
    destruct (rec_some _ st Hin Hvis Hn) as (b & s' & -> & Hsub).
    destruct b; [by exists true, s' |].
    destruct (IH s') as (b & st' & -> & Hsub').
    + pose proof (unvisited_mono _ _ Hsub). lia.
    + exists b, st'. split; [done |]. set_solver.
Qed.
End way_loop_total.

Lemma way_exists_fuel_some (n : nat) (node dest : pos) (st : store) :
  in_board node = true → node ∉ visited st → (unvisited (visited st) < n)%nat →
  ∃ b st', way_exists_fuel n node dest st = Some (b, st')
           ∧ visited st ⊆ visited st'.
Proof.
  revert node st. induction n as [| n IH]; intros node st Hin Hvis Hn; [lia |].
  cbn [way_exists_fuel]. destruct (is_goal node dest); [by exists true, st |].
  destruct (way_loop_some _ n (λ e s, IH e s) node DEFAULT (visit node st).2)
    as (b & st' & Hl & Hsub).
  - simpl. pose proof (unvisited_visit node (visited st) (in_board_elem_of _ Hin) Hvis).
    lia.
  - exists b, st'. split; [exact Hl |]. simpl in Hsub. set_solver.
Qed.

(** [FUEL] is never exhausted by [way_exists]: the source returns on every
    store, from every node. *)
Lemma way_exists_fuel_total (node dest : pos) (st : store) :
  is_Some (way_exists_fuel FUEL node dest st).
Proof.
  unfold FUEL. cbn [way_exists_fuel]. destruct (is_goal node dest); [done |].
  destruct (way_loop_some _ 82 (λ e s, way_exists_fuel_some 82 e dest s)
              node DEFAULT (visit node st).2) as (b & st' & Hl & _).
  - pose proof (unvisited_le (visited (visit node st).2)). lia.
  - exists (b, st'). exact Hl.
Qed.

(** Every move that [possible_moves] returns is a cell of the board,
    wherever the pawn is. *)
Lemma moves_dir_in_board (st : store) (p d m : pos) :
  d ∈ DEFAULT → m ∈ moves_dir st p d → in_board m = true.
Proof.
  destruct p as [x y].
  intros [-> | [-> | [-> | ->]]]%elem_of_DEFAULT; unfold moves_dir;
    cbn [negb Z.eqb];
    repeat match goal with
           | |- context [if ?c then _ else _] => destruct c eqn:?
           end;
    rewrite ?elem_of_app, ?elem_of_cons, ?elem_of_nil;
    intros Hm; destruct_or?; try done; subst m;
    repeat match goal with
           | H : _ && _ = true |- _ => apply andb_true_iff in H as [? ?]
           | H : (_ <=? _) = true |- _ => apply Z.leb_le in H
           | H : (_ <? _) = true |- _ => apply Z.ltb_lt in H
           end;
    apply in_board_iff; simpl; lia.
Qed.

Lemma possible_moves_in_board (st : store) (p m : pos) :
  m ∈ possible_moves st p → in_board m = true.
Proof.
  unfold possible_moves. rewrite list_elem_of_In, in_flat_map.
  intros (d & Hd & Hm). rewrite <- list_elem_of_In in Hd, Hm.
  by eapply moves_dir_in_board.
Qed.

(** * The breadth-first distance *)

Lemma reach_snoc (st : store) (n : nat) (a b c : pos) :
  reach st n a b → c ∈ possible_moves st b → reach st (S n) a c.
Proof.
  induction 1 as [a | n a b' b Hab Hbc IH]; intros Hc.
  - eapply reach_step; [done | constructor].
  - eapply reach_step; [done | by apply IH].
Qed.

Lemma bfs_push_spec (depth : Z) (moves : list pos) (q : list (pos * Z))
    (st : store) :
  ∃ new v',
    bfs_push depth moves q st
    = (q ++ map (λ m, (m, depth + 1)) new, set_visited v' st)
    ∧ (∀ m, m ∈ new ↔ m ∈ moves ∧ m ∉ visited st)
    ∧ (∀ c, c ∈ v' ↔ c ∈ visited st ∨ c ∈ new)
    ∧ ((∀ m, m ∈ moves → m ∈ board) →
       (length new + unvisited v' ≤ unvisited (visited st))%nat).
Proof.
  unfold bfs_push. revert q st.
  induction moves as [| m moves IH]; intros q st; simpl.
  - exists [], (visited st). rewrite app_nil_r, set_visited_id.
    split; [done |]. split; [set_solver |]. split; [set_solver |]. simpl; lia.
  - destruct (bool_decide (m ∈ visited st)) eqn:Hm.
    + apply bool_decide_eq_true in Hm.
      destruct (IH q st) as (new & v' & Heq & Hnew & Hv' & Hsize).
      exists new, v'. split; [exact Heq |]. split; [| split; [done |]].
      * intros x. rewrite Hnew, elem_of_cons. naive_solver.
      * intros Hb. apply Hsize. intros x Hx. apply Hb. by right.
    + apply bool_decide_eq_false in Hm.
      destruct (IH (q ++ [(m, depth + 1)]) (visit m st).2)
        as (new & v' & Heq & Hnew & Hv' & Hsize).
      exists (m :: new), v'. split; [etrans; [exact Heq |]; by rewrite <- app_assoc |].
      simpl in *.
      split; [| split].
      * intros x. rewrite !elem_of_cons, Hnew.
        rewrite not_elem_of_union, not_elem_of_singleton.
        clear IH Heq Hsize Hv' Hnew.
        destruct (decide (x = m)) as [-> | ?]; tauto.
      * intros c. rewrite Hv', elem_of_cons, elem_of_union, elem_of_singleton.
        tauto.
      * intros Hb.
        assert (unvisited ({[m]} ∪ visited st) < unvisited (visited st))%nat
          by (apply unvisited_visit; [apply Hb; by left | done]).
        assert (length new + unvisited v' ≤ unvisited ({[m]} ∪ visited st))%nat
          by (apply Hsize; intros x Hx; apply Hb; by right).
        lia.
Qed.

Lemma queue_ok_app (q : list (pos * Z)) (new : list pos) (D : Z) :
  queue_ok q → (∀ c d, (c, d) ∈ q → d ≤ D ≤ d + 1) →
  queue_ok (q ++ map (λ m, (m, D)) new).
Proof.
  induction q as [| [c d] q IH]; simpl.
  - intros _ _. induction new as [| m new IHn]; simpl; [done |].
    split; [| done]. intros c' d' (m' & [= _ ->] & _)%list_elem_of_fmap. lia.
  - intros [Hhd Hq] Hall. split.
    + intros c' d' [Hin | (m' & [= _ ->] & _)%list_elem_of_fmap]%elem_of_app.
      * by eapply Hhd.
      * apply (Hall c d). by left.
    + apply IH; [done |]. intros c' d' Hin. apply (Hall c' d'). by right.
Qed.

Lemma explored_mono (st : store) (wins : pos) (v v' : gset pos) (c : pos) :
  (∀ x, x ∈ v → x ∈ v') → explored st wins v c → explored st wins v' c.
Proof. intros Hsub (Hc & Hg & Hm). repeat split; auto. Qed.

(** From a visited cell, every chain of moves either ends on an explored
    cell or passes through the queue. *)
Lemma visited_reach (st : store) (wins : pos) (q : list (pos * Z))
    (v : gset pos) :
  (∀ c, c ∈ v → (∃ d, (c, d) ∈ q) ∨ explored st wins v c) →
  ∀ m u c, reach st m u c → u ∈ v →
    explored st wins v c
    ∨ ∃ c' d' m', (c', d') ∈ q ∧ (m' ≤ m)%nat ∧ reach st m' c' c.
Proof.
  intros Hv m u c Hreach.
  induction Hreach as [a | n a b c Hab Hbc IH]; intros Ha.
  - destruct (Hv a Ha) as [[d Hd] | He]; [| by left].
    right. exists a, d, 0%nat. split; [done |]. split; [lia | constructor].
  - destruct (Hv a Ha) as [[d Hd] | He].
    + right. exists a, d, (S n). split; [done |]. split; [lia |].
      by eapply reach_step.
    + destruct He as (_ & _ & Hmoves).
      destruct (IH (Hmoves b Hab)) as [He | (c' & d' & m' & Hq & Hle & Hr)];
        [by left |].
      right. exists c', d', m'. split; [done |]. split; [lia | done].
Qed.

Lemma bfs_inv_init (st : store) (p wins : pos) :
  bfs_inv st p wins [(p, 0)] ({[p]} ∪ ∅).
Proof.
  split; [| split; [| split]].
  - simpl. split; [| done]. intros c' d' H. by apply elem_of_nil in H.
  - intros c d [= -> ->]%list_elem_of_singleton. split; [set_solver |]. split.
    + pose proof (unvisited_le ({[p]} ∪ ∅)). simpl. lia.
    + exists 0%nat. split; [done | constructor].
  - intros c Hc. left. exists 0. assert (c = p) as -> by set_solver.
    by apply list_elem_of_singleton.
  - intros n c Hr. right. exists p, 0, n.
    split; [by apply list_elem_of_singleton |]. split; [done | lia].
Qed.

Lemma bfs_inv_pop (st : store) (p wins c1 : pos) (d1 : Z)
    (rest : list (pos * Z)) (v v' : gset pos) (new : list pos) :
  bfs_inv st p wins ((c1, d1) :: rest) v →
  is_goal c1 wins = false →
  (∀ m, m ∈ new ↔ m ∈ possible_moves st c1 ∧ m ∉ v) →
  (∀ c, c ∈ v' ↔ c ∈ v ∨ c ∈ new) →
  (length new + unvisited v' ≤ unvisited v)%nat →
  bfs_inv st p wins (rest ++ map (λ m, (m, d1 + 1)) new) v'.
Proof.
  intros (Hok & Hq & Hv & Hfront) Hgoal Hnew Hv' Hsize.
  destruct Hok as [Hhd Hok].
  assert (∀ x, x ∈ v → x ∈ v') as Hsub by (intros x Hx; apply Hv'; by left).
  destruct (Hq c1 d1) as (Hc1 & Hb1 & n1 & Hn1 & Hr1); [by left |].
  assert (explored st wins v' c1) as Hexp1.
  { split; [by apply Hsub |]. split; [done |].
    intros c' Hc'. apply Hv'. destruct (decide (c' ∈ v)); [by left |].
    right. by apply Hnew. }
  assert (∀ c d, (c, d) ∈ rest ++ map (λ m, (m, d1 + 1)) new → d ≤ d1 + 1)
    as Hdepth.
  { intros c d [Hin | (m & [= _ ->] & _)%list_elem_of_fmap]%elem_of_app; [| lia].
    apply (Hhd c d Hin). }
  assert (∀ c, c ∈ v' →
            (∃ d, (c, d) ∈ rest ++ map (λ m, (m, d1 + 1)) new)
            ∨ explored st wins v' c) as Hv3.
  { intros c [Hc | Hc]%Hv'.
    - destruct (Hv c Hc) as [[d [[= -> ->] | Hd]%elem_of_cons] | He].
      + by right.
      + left. exists d. apply elem_of_app. by left.
      + right. by eapply explored_mono.
    - left. exists (d1 + 1). apply elem_of_app. right.
      apply list_elem_of_fmap. by exists c. }
  split; [| split; [| split]].
  - apply queue_ok_app; [done |]. intros c d Hin.
    specialize (Hhd c d Hin). lia.
  - intros c d [Hin | (m & [= -> ->] & Hm)%list_elem_of_fmap]%elem_of_app.
    + destruct (Hq c d) as (Hc & Hb & n & Hn & Hr); [by right |].
      split; [by apply Hsub |]. split; [| by exists n].
      rewrite length_app, length_map. simpl in Hb. lia.
    + apply Hnew in Hm as [Hm Hmv]. split; [apply Hv'; right; by apply Hnew |].
      split.
      * rewrite length_app, length_map. simpl in Hb1. lia.
      * exists (S n1). split; [lia |]. by eapply reach_snoc.
  - done.
  - intros n c Hr.
    destruct (Hfront n c Hr) as [He | (c' & d' & m & Hin & Hr' & Hle)].
    { left. by eapply explored_mono. }
    apply elem_of_cons in Hin as [[= -> ->] | Hin].
    + inversion Hr' as [a | m' a b c0 Hab Hbc]; subst.
      * by left.
      * assert (b ∈ v') as Hb.
        { apply Hv'. destruct (decide (b ∈ v)); [by left |].
          right. by apply Hnew. }
        destruct (visited_reach st wins _ v' Hv3 m' b c Hbc Hb)
          as [He | (c'' & d'' & m'' & Hin'' & Hle'' & Hr'')]; [by left |].
        right. exists c'', d'', m''. split; [done |]. split; [done |].
        specialize (Hdepth c'' d'' Hin''). lia.
    + right. exists c', d', m. split; [| done]. apply elem_of_app. by left.
Qed.

(** The loop of [bfs], run from a state that satisfies the invariant with
    enough fuel, returns, and returns the shortest distance. *)
Lemma bfs_loop_correct (st : store) (p wins : pos) (n : nat) :
  ∀ (q : list (pos * Z)) (v : gset pos),
    bfs_inv st p wins q v →
    (length q + unvisited v < n)%nat →
    ∃ d v', bfs_loop n wins q (set_visited v st) = Some (d, set_visited v' st)
            ∧ shortest st p wins d.
Proof.
  induction n as [| n IH]; intros q v Hinv Hn; [lia |].
  cbn [bfs_loop]. destruct q as [| [c1 d1] rest].
  - exists 1000000, v. split; [done |]. right. split; [done |].
    intros k c Hr. destruct Hinv as (_ & _ & _ & Hfront).
    destruct (Hfront k c Hr) as [(_ & Hg & _) | (c' & d' & m & Hin & _)];
      [done | by apply elem_of_nil in Hin].
  - destruct (is_goal c1 wins) eqn:Hgoal.
    + exists d1, v. split; [done |]. left.
      destruct Hinv as ([Hhd _] & Hq & _ & Hfront).
      destruct (Hq c1 d1) as (_ & Hb & n1 & -> & Hr1); [by left |].
      exists n1, c1. split; [done |]. split; [simpl in Hb; lia |].
      split; [done |]. split; [done |].
      intros n' c' Hr' Hg'.
      destruct (Hfront n' c' Hr') as [(_ & Hg & _) | (c'' & d'' & m & Hin & _ & Hle)];
        [congruence |].
      apply elem_of_cons in Hin as [[= -> ->] | Hin]; [lia |].
      specialize (Hhd c'' d'' Hin). lia.
    + change (possible_moves (set_visited v st) c1) with (possible_moves st c1).
      destruct (bfs_push_spec d1 (possible_moves st c1) rest (set_visited v st))
        as (new & v' & Heq & Hnew & Hv' & Hsize).
      rewrite Heq. simpl in Hnew, Hv', Hsize.
      change (set_visited v' (set_visited v st)) with (set_visited v' st).
      assert (length new + unvisited v' ≤ unvisited v)%nat as Hsize'.
      { apply Hsize. intros m Hm. apply in_board_elem_of.
        by eapply possible_moves_in_board. }
      apply IH.
      * by eapply bfs_inv_pop.
      * rewrite length_app, length_map. simpl in Hn. lia.
Qed.

(** [FUEL] is never exhausted by [bfs]: the source returns on every store,
    from every position. *)
Lemma bfs_loop_total (st : store) (p wins : pos) :
  is_Some (bfs_loop FUEL wins [(p, 0)] (visit p (reset st).2).2).
Proof.
  destruct (bfs_loop_correct st p wins FUEL [(p, 0)] ({[p]} ∪ ∅))
    as (d & v' & Heq & _).
  - apply bfs_inv_init.
  - pose proof (unvisited_le ({[p]} ∪ ∅)). unfold FUEL. simpl. lia.
  - eexists. exact Heq.
Qed.

Lemma bfs_shortest (st : store) (p wins : pos) :
  shortest st p wins (bfs p wins st).1.
Proof.
  destruct (bfs_loop_correct st p wins FUEL [(p, 0)] ({[p]} ∪ ∅))
    as (d & v' & Heq & Hd).
  - apply bfs_inv_init.
  - pose proof (unvisited_le ({[p]} ∪ ∅)). unfold FUEL. simpl. lia.
  - unfold bfs.
    change (visit p (reset st).2).2 with (set_visited ({[p]} ∪ ∅) st).
    by rewrite Heq.
Qed.

(** C7: [bfs] returns 0 exactly when the start position satisfies the goal
    test; otherwise it returns the depth of the first goal cell that leaves
    the queue, which is the least number of moves of [possible_moves] that
    lead from the start to a goal cell (at most 81), or the sentinel
    1000000 when no chain of moves reaches a goal cell. *)
Theorem bfs_returns_shortest_distance (st : store) (p wins : pos) :
  ((bfs p wins st).1 = 0 ↔ is_goal p wins = true)
  ∧ ((∃ n c, (bfs p wins st).1 = Z.of_nat n ∧ (n ≤ 81)%nat
             ∧ reach st n p c ∧ is_goal c wins = true
             ∧ ∀ n' c', reach st n' p c' → is_goal c' wins = true → (n ≤ n')%nat)
     ∨ ((bfs p wins st).1 = 1000000
        ∧ ∀ n c, reach st n p c → is_goal c wins = false)).
Proof.
  pose proof (bfs_shortest st p wins) as Hs. split; [| exact Hs].
  destruct Hs as [(n & c & Hd & _ & Hr & Hg & Hmin) | [Hd Hnone]].
  - rewrite Hd. split.
    + intros H0. assert (n = 0%nat) as -> by lia.
      inversion Hr; by subst.
    + intros Hp. specialize (Hmin 0%nat p (reach_here st p) Hp). lia.
  - rewrite Hd. split; [done |].
    intros Hp. rewrite (Hnone 0%nat p (reach_here st p)) in Hp. done.
Qed.

(** * More on [possible_moves] *)

Lemma occupied_false (g : list (list (option nat))) (x y : Z) :
  occupied g x y = false ↔ cell g x y = None.
Proof. unfold occupied. by destruct (cell g x y). Qed.

Lemma moves_dir_free (st : store) (p d m : pos) :
  d ∈ DEFAULT → m ∈ moves_dir st p d →
  cell (grid st) m.1 m.2 = None ∧ m ≠ p.
Proof.
  destruct p as [x y].
  intros [-> | [-> | [-> | ->]]]%elem_of_DEFAULT; unfold moves_dir;
    cbn [negb Z.eqb Z.mul Z.opp Pos.mul];
    repeat match goal with
           | |- context [if ?c then _ else _] => destruct c eqn:?
           end;
    rewrite ?elem_of_app, ?elem_of_cons, ?elem_of_nil;
    intros Hm; destruct_or?; try done; subst m;
    repeat match goal with
           | H : _ && _ = true |- _ => apply andb_true_iff in H as [? ?]
           | H : negb _ = true |- _ => apply negb_true_iff in H
           | H : occupied _ _ _ = false |- _ => apply occupied_false in H
           end;
    (split; [done | intros [= ? ?]; lia]).
Qed.

Lemma possible_moves_free (st : store) (p m : pos) :
  m ∈ possible_moves st p →
  0 ≤ m.1 ≤ 8 ∧ 0 ≤ m.2 ≤ 8 ∧ cell (grid st) m.1 m.2 = None ∧ m ≠ p.
Proof.
  intros Hm. pose proof (possible_moves_in_board st p m Hm) as Hb.
  apply in_board_iff in Hb.
  unfold possible_moves in Hm. rewrite list_elem_of_In, in_flat_map in Hm.
  destruct Hm as (d & Hd & Hm). rewrite <- list_elem_of_In in Hd, Hm.
  destruct (moves_dir_free st p d m Hd Hm) as [Hc Hne].
  repeat split; try done; lia.
Qed.

(** X1: every cell that [possible_moves] returns lies on the 9 x 9 board, is
    empty and differs from the cell of the pawn, whatever the position asked
    for, the grid and the walls are. *)
Theorem possible_moves_free_board_cells (st : store) (p m : pos) :
  m ∈ possible_moves st p →
  0 ≤ m.1 ≤ 8 ∧ 0 ≤ m.2 ≤ 8 ∧ cell (grid st) m.1 m.2 = None ∧ m ≠ p.
Proof. exact (possible_moves_free st p m). Qed.

Lemma possible_moves_free_board_cells_witness :
  0 ≤ 4 ≤ 8 ∧ 0 ≤ 1 ≤ 8 ∧ cell (grid game2) 4 1 = None ∧ (4, 1) ≠ (4, 0).
Proof.
  apply (possible_moves_free_board_cells game2 (4, 0) (4, 1)).
  apply (bool_decide_unpack _). by vm_compute.
Defined.

(** * More on the geometry of walls *)

Lemma wall_init_swap (s e : pos) (fake : bool) :
  s.1 = e.1 ∨ s.2 = e.2 → Wall.init s e fake = Wall.init e s fake.
Proof.
  destruct s as [x y], e as [dx dy]; simpl. intros H.
  unfold Wall.init. destruct fake; simpl;
    repeat match goal with
           | |- context [?a <? ?b] => destruct (Z.ltb_spec a b)
           end; simpl; try (f_equal; f_equal; lia); lia.
Qed.

(** X2: for a segment parallel to an axis, [Wall.__init__] builds the same
    object from both orders of its end points. *)
Theorem wall_init_order_irrelevant (s e : pos) (fake : bool) :
  s.1 = e.1 ∨ s.2 = e.2 → Wall.init s e fake = Wall.init e s fake.
Proof. exact (wall_init_swap s e fake). Qed.

Lemma wall_init_order_irrelevant_witness :
  Wall.init (2, 0) (0, 0) false = Wall.init (0, 0) (2, 0) false.
Proof. apply wall_init_order_irrelevant. right. reflexivity. Defined.



Lemma engine_wall_hv (w : Wall.t) :
  engine_wall w ↔ ∃ a b, w = hwall a b ∨ w = vwall a b.
Proof.
  split.
  - intros ([x y] & d & Hd & ->).
    apply elem_of_DEFAULT in Hd as [-> | [-> | [-> | ->]]].
    + exists (x - 2), y. left. unfold hwall.
      rewrite wall_at_west, wall_at_east. f_equal; f_equal; lia.
    + exists x, y. by left.
    + exists x, (y - 2). right. unfold vwall.
      rewrite wall_at_north, wall_at_south. f_equal; f_equal; lia.
    + exists x, y. by right.
  - intros (a & b & [-> | ->]); eexists (a, b), _; (split; [| done]);
      apply elem_of_DEFAULT; tauto.
Qed.

(** X4: two walls of the wall list overlap exactly when they are parallel on
    the same line with lower ends at most one cell apart (equal or
    half-covering; walls that only touch end to end do not overlap), or
    perpendicular with the same midpoint. *)
Theorem engine_walls_overlap_iff (a b c d : Z) :
  (Wall.overlaps (hwall a b) (hwall c d) = true ↔ b = d ∧ -1 ≤ a - c ≤ 1)
  ∧ (Wall.overlaps (vwall a b) (vwall c d) = true ↔ a = c ∧ -1 ≤ b - d ≤ 1)
  ∧ (Wall.overlaps (hwall a b) (vwall c d) = true ↔ c = a + 1 ∧ b = d + 1)
  ∧ (Wall.overlaps (vwall a b) (hwall c d) = true ↔ a = c + 1 ∧ d = b + 1).
Proof.
  unfold hwall, vwall. rewrite !wall_at_east, !wall_at_south.
  rewrite !overlaps_true_iff. simpl. repeat split; lia.
Qed.

(** X5: the probe of a single step meets a wall of the wall list exactly
    when that wall lies across the edge between the two cells: a vertical
    wall between the two columns that spans the row, for a step to the
    right; a horizontal wall between the two rows that spans the column, for
    a step down. *)
Theorem step_probe_overlaps_iff (x y a b : Z) :
  (Wall.overlaps (Wall.init (x, y) (x + 1, y) true) (vwall a b) = true
   ↔ a = x ∧ (b = y - 1 ∨ b = y - 2))
  ∧ (Wall.overlaps (Wall.init (x, y) (x + 1, y) true) (hwall a b) = false)
  ∧ (Wall.overlaps (Wall.init (x, y) (x, y + 1) true) (hwall a b) = true
     ↔ b = y ∧ (a = x - 1 ∨ a = x - 2))
  ∧ (Wall.overlaps (Wall.init (x, y) (x, y + 1) true) (vwall a b) = false).
Proof.
  unfold hwall, vwall. rewrite !wall_at_east, !wall_at_south.
  assert (Wall.init (x, y) (x + 1, y) true
          = Wall.mk (2 * x, 2 * y) (2 * x + 2, 2 * y)) as ->.
  { unfold Wall.init; simpl.
    replace (_ || _) with false by (symmetry; apply orb_false_iff; split; lia).
    f_equal; f_equal; lia. }
  assert (Wall.init (x, y) (x, y + 1) true
          = Wall.mk (2 * x, 2 * y) (2 * x, 2 * y + 2)) as ->.
  { unfold Wall.init; simpl.
    replace (_ || _) with false by (symmetry; apply orb_false_iff; split; lia).
    f_equal; f_equal; lia. }
  rewrite <- !not_true_iff_false, !overlaps_true_iff. simpl.
  repeat split; lia.
Qed.

(** * What [way_exists] decides *)

Lemma closed_in_mono (st : store) (dest : pos) (v v' : gset pos) (c : pos) :
  v ⊆ v' → closed_in st dest v c → closed_in st dest v' c.
Proof. intros Hsub [Hg Hc]. split; [done |]. intros c' Hc'. apply Hsub. auto. Qed.

Lemma failed_search_trans (st : store) (dest : pos) (v1 v2 v3 : gset pos) :
  failed_search st dest v1 v2 → failed_search st dest v2 v3 →
  failed_search st dest v1 v3.
Proof.
  intros [Hs1 Hc1] [Hs2 Hc2]. split; [by etrans |].
  intros c Hc3 Hc1'. destruct (decide (c ∈ v2)) as [Hc2' | Hc2'].
  - eapply closed_in_mono; [done |]. by apply Hc1.
  - by apply Hc2.
Qed.

Section way_loop_sound.
Variable st : store.
Variable dest : pos.
Variable rec : pos → store → option (bool * store).
Hypothesis rec_sound : ∀ e v b s',
  rec e (set_visited v st) = Some (b, s') →
  s' = set_visited (visited s') st
  ∧ (b = true → goal_reachable st e dest)
  ∧ (b = false → failed_search st dest v (visited s') ∧ e ∈ visited s').

Lemma way_loop_sound (node : pos) (dirs : list pos) (v : gset pos)
    (b : bool) (s' : store) :
  (∀ d, d ∈ dirs → d ∈ DEFAULT) →
  way_loop rec node dirs (set_visited v st) = Some (b, s') →
  s' = set_visited (visited s') st
  ∧ (b = true → goal_reachable st node dest)
  ∧ (b = false →
     failed_search st dest v (visited s')
     ∧ ∀ d, d ∈ dirs →
         in_board (node.1 + d.1, node.2 + d.2) = true →
         any_overlap st node (node.1 + d.1, node.2 + d.2) true = false →
         (node.1 + d.1, node.2 + d.2) ∈ visited s').
Proof.
  revert v. induction dirs as [| d dirs IH]; intros v Hdirs; simpl.
  - intros [= <- <-]. split; [done |]. split; [done |]. intros _. split.
    + split; [done |]. intros c Hc Hc'. done.
    + intros d Hd. by apply elem_of_nil in Hd.
  - set (e := (node.1 + d.1, node.2 + d.2)).
    assert (∀ d0, d0 ∈ dirs → d0 ∈ DEFAULT) as Hdirs'
      by (intros d0 Hd0; apply Hdirs; by right).
    change (any_overlap (set_visited v st) node e true)
      with (any_overlap st node e true).
    destruct (in_board e) eqn:Hin; simpl.
    2:{ intros Hl. destruct (IH v Hdirs' Hl) as (Hs & Ht & Hf).
        split; [done |]. split; [done |]. intros Hb.
        destruct (Hf Hb) as [Hfs Hall]. split; [done |].
        intros d0 [-> | Hd0]%elem_of_cons; [fold e; congruence | by apply Hall]. }
    destruct (bool_decide (e ∈ v)) eqn:Hvis; simpl.
    { apply bool_decide_eq_true in Hvis.
      intros Hl. destruct (IH v Hdirs' Hl) as (Hs & Ht & Hf).
      split; [done |]. split; [done |]. intros Hb.
      destruct (Hf Hb) as [Hfs Hall]. split; [done |].
      intros d0 [-> | Hd0]%elem_of_cons; [| by apply Hall].
      intros _ _. fold e. destruct Hfs as [Hsub _]. by apply Hsub. }
    destruct (any_overlap st node e true) eqn:Hov; simpl.
    { intros Hl. destruct (IH v Hdirs' Hl) as (Hs & Ht & Hf).
      split; [done |]. split; [done |]. intros Hb.
      destruct (Hf Hb) as [Hfs Hall]. split; [done |].
      intros d0 [-> | Hd0]%elem_of_cons; [fold e; congruence | by apply Hall]. }
    destruct (rec e (set_visited v st)) as [[[] s1] |] eqn:Hrec; [| | done].
    + intros [= <- <-].
      destruct (rec_sound _ _ _ _ Hrec) as (Hs & Ht & _).
      split; [done |]. split; [| done]. intros _.
      destruct (Ht eq_refl) as (c & Hpath & Hgoal).
      exists c. split; [| done]. eapply rtc_l; [| done].
      exists d. split; [apply Hdirs; by left |]. done.
    + destruct (rec_sound _ _ _ _ Hrec) as (Hs1 & _ & Hf1).
      destruct (Hf1 eq_refl) as [Hfs1 He1]. rewrite Hs1.
      intros Hl. destruct (IH _ Hdirs' Hl) as (Hs & Ht & Hf).
      split; [done |]. split; [done |]. intros Hb.
      destruct (Hf Hb) as [Hfs Hall]. split; [by eapply failed_search_trans |].
      intros d0 [-> | Hd0]%elem_of_cons; [| by apply Hall].
      intros _ _. fold e. destruct Hfs as [Hsub _]. by apply Hsub.
Qed.
End way_loop_sound.

Lemma way_exists_fuel_sound (st : store) (dest : pos) (n : nat) :
  ∀ node v b s',
    way_exists_fuel n node dest (set_visited v st) = Some (b, s') →
    s' = set_visited (visited s') st
    ∧ (b = true → goal_reachable st node dest)
    ∧ (b = false → failed_search st dest v (visited s') ∧ node ∈ visited s').
Proof.
  induction n as [| n IH]; intros node v b s'; [done |].
  cbn [way_exists_fuel]. destruct (is_goal node dest) eqn:Hgoal.
  - intros [= <- <-]. split; [done |]. split; [| done].
    intros _. exists node. split; [done | done].
  - intros Hl.
    change (visit node (set_visited v st)).2
      with (set_visited ({[node]} ∪ v) st) in Hl.
    destruct (way_loop_sound st dest _ IH node DEFAULT _ b s' (λ d H, H) Hl)
      as (Hs & Ht & Hf).
    split; [done |]. split; [done |]. intros Hb.
    destruct (Hf Hb) as [[Hsub Hclosed] Hall].
    assert (node ∈ visited s') as Hnode by (apply Hsub; set_solver).
    split; [| done]. split; [set_solver |].
    intros c Hc Hcv. destruct (decide (c = node)) as [-> | Hne].
    + split; [done |]. intros c' (d & Hd & -> & Hin & Hov). by apply Hall.
    + apply Hclosed; [done |]. set_solver.
Qed.

Lemma way_exists_reset_iff (st : store) (node dest : pos) :
  (way_exists node dest (reset st).2).1 = true ↔ goal_reachable st node dest.
Proof.
  unfold way_exists.
  destruct (way_exists_fuel_total node dest (reset st).2) as [[b s'] Hrun].
  rewrite Hrun. simpl.
  destruct (way_exists_fuel_sound st dest FUEL node ∅ b s' Hrun) as (_ & Ht & Hf).
  clear Hrun. split; [done |]. intros (c & Hpath & Hgoal).
  destruct b; [done |]. destruct (Hf eq_refl) as [[_ Hclosed] Hnode].
  assert (∀ a c, rtc (open_step st) a c → a ∈ visited s' → c ∈ visited s') as Hall.
  { intros a c0 Hrtc. induction Hrtc as [| a b0 c0 Hab _ IHr]; [done |].
    intros Ha. apply IHr.
    destruct (Hclosed a Ha) as [_ Hn]; [apply not_elem_of_empty |].
    by apply Hn. }
  destruct (Hclosed c) as [Hg _];
    [by eapply Hall | apply not_elem_of_empty | congruence].
Qed.

(** X6: called right after [reset], [way_exists] answers [True] exactly when
    some cell that satisfies the goal test can be reached from the node by
    steps to neighbouring board cells that no wall blocks (pawns do not
    block the search). *)
Theorem way_exists_decides_reachability (st : store) (node dest : pos) :
  (way_exists node dest (reset st).2).1 = true ↔ goal_reachable st node dest.
Proof. exact (way_exists_reset_iff st node dest). Qed.

Lemma open_step_walls (st1 st2 : store) (a b : pos) :
  (∀ w, w ∈ walls st1 → w ∈ walls st2) →
  open_step st2 a b → open_step st1 a b.
Proof.
  intros Hsub (d & Hd & Hb & Hin & Hov). exists d. repeat split; try done.
  unfold any_overlap in *. apply not_true_iff_false. intros Ht.
  apply not_true_iff_false in Hov. apply Hov.
  apply existsb_exists in Ht as (w & Hw & Ho). apply existsb_exists.
  exists w. split; [| done]. apply list_elem_of_In, Hsub. by apply list_elem_of_In.
Qed.

(** X7: walls only ever cut connections: if [way_exists] (after [reset])
    finds the goal on a store, it finds it on every store whose wall list
    holds no other walls, in particular on the store before a wall was
    appended. *)
Theorem way_exists_antitone_in_walls (st1 st2 : store) (node dest : pos) :
  (∀ w, w ∈ walls st1 → w ∈ walls st2) →
  (way_exists node dest (reset st2).2).1 = true →
  (way_exists node dest (reset st1).2).1 = true.
Proof.
  intros Hsub. rewrite !way_exists_reset_iff.
  intros (c & Hpath & Hgoal). exists c. split; [| done].
  eapply rtc_subrel; [| done]. intros a b. by apply open_step_walls.
Qed.

Lemma way_exists_antitone_in_walls_witness :
  (way_exists (0, 0) (-1, 8) (reset game2).2).1 = true.
Proof.
  apply (way_exists_antitone_in_walls game2 corner_store).
  - intros w Hw. by apply elem_of_nil in Hw.
  - by vm_compute.
Defined.

Lemma elem_of_possible_orients (st : store) (p d : pos) :
  d ∈ (possible_orients p st).1 ↔ d ∈ DEFAULT ∧ orient_ok st p d = true.
Proof.
  destruct (touches_visited_only_run _ _ _ (possible_orients_spec st p)) as [-> _].
  by rewrite list_elem_of_In, filter_In, <- list_elem_of_In.
Qed.

Lemma elem_of_possible_orients_iff (st : store) (p d : pos) :
  d ∈ (possible_orients p st).1
  ↔ d ∈ DEFAULT
    ∧ (-1 ≤ p.1 + 2 * d.1 < 9 ∧ -1 ≤ p.2 + 2 * d.2 < 9)
    ∧ any_overlap st p (p.1 + 2 * d.1, p.2 + 2 * d.2) false = false
    ∧ ∀ player, player ∈ players st →
        goal_reachable (push_wall (wall_at p d) st).2
                       (Player.position player) (Player.wins player).
Proof.
  destruct (touches_visited_only_run _ _ _ (possible_orients_spec st p)) as [-> _].
  rewrite list_elem_of_In, filter_In, <- list_elem_of_In.
  unfold orient_ok, in_lattice_ext; simpl.
  rewrite !andb_true_iff, !Z.leb_le, !Z.ltb_lt, negb_true_iff, forallb_forall.
  split.
  - intros (Hd & (Hb & Hov) & Hall). repeat split; try done; try lia.
    intros player Hplayer. apply way_exists_reset_iff.
    apply Hall. by apply list_elem_of_In.
  - intros (Hd & Hb & Hov & Hall). repeat split; try done; try lia.
    intros player Hplayer. apply way_exists_reset_iff.
    apply Hall. by apply list_elem_of_In.
Qed.

(** X8: [possible_orients] returns exactly the directions of [DEFAULT] whose
    wall ends within [-1, 8] on both axes, overlaps no wall of the wall list
    and, once appended, leaves every player a chain of open steps from its
    position to a cell that satisfies its goal. *)
Theorem possible_orients_iff (st : store) (p d : pos) :
  d ∈ (possible_orients p st).1
  ↔ d ∈ DEFAULT
    ∧ (-1 ≤ p.1 + 2 * d.1 < 9 ∧ -1 ≤ p.2 + 2 * d.2 < 9)
    ∧ any_overlap st p (p.1 + 2 * d.1, p.2 + 2 * d.2) false = false
    ∧ ∀ player, player ∈ players st →
        goal_reachable (push_wall (wall_at p d) st).2
                       (Player.position player) (Player.wins player).
Proof. exact (elem_of_possible_orients_iff st p d). Qed.

Lemma elem_of_possible_walls_iff (st : store) (player : Player.t) (p : pos) :
  p ∈ (possible_walls player st).1
  ↔ Player.remaining_walls player ≠ 0
    ∧ (0 ≤ p.1 < 8 ∧ 0 ≤ p.2 < 8)
    ∧ (possible_orients p st).1 ≠ [].
Proof.
  destruct (touches_visited_only_run _ _ _ (possible_walls_spec player st)) as [-> _].
  destruct (touches_visited_only_run _ _ _ (possible_orients_spec st p)) as [-> _].
  destruct (Z.eqb_spec (Player.remaining_walls player) 0) as [H0 | H0].
  - rewrite elem_of_nil. tauto.
  - rewrite list_elem_of_In, filter_In, <- list_elem_of_In, elem_of_lattice.
    unfold has_orient. destruct (List.filter _ _) as [| d0 l].
    + split; [by intros [_ [=]] | by intros (_ & _ & H)].
    + split; [intros [Hp _] | intros (_ & Hp & _)].
      * split; [done |]. split; [lia | done].
      * split; [lia | done].
Qed.

(** X9: [possible_walls] returns exactly the lattice points (both
    coordinates in [0, 7]) at which [possible_orients] returns at least one
    direction, provided the player has a wall left; it returns nothing
    otherwise. *)
Theorem possible_walls_iff (st : store) (player : Player.t) (p : pos) :
  p ∈ (possible_walls player st).1
  ↔ Player.remaining_walls player ≠ 0
    ∧ (0 ≤ p.1 < 8 ∧ 0 ≤ p.2 < 8)
    ∧ (possible_orients p st).1 ≠ [].
Proof. exact (elem_of_possible_walls_iff st player p). Qed.

Lemma elem_of_all_possible_walls_iff (st : store) (p d : pos) :
  ((p, d) ∈ (all_possible_walls st).1
   ↔ (0 ≤ p.1 < 8 ∧ 0 ≤ p.2 < 8) ∧ d ∈ (possible_orients p st).1)
  ∧ ∀ player, Player.remaining_walls player ≠ 0 →
      (p, d) ∈ (all_possible_walls st).1 → p ∈ (possible_walls player st).1.
Proof.
  assert ((p, d) ∈ (all_possible_walls st).1
          ↔ (0 ≤ p.1 < 8 ∧ 0 ≤ p.2 < 8) ∧ d ∈ (possible_orients p st).1) as Hiff.
  { rewrite elem_of_all_possible_walls, elem_of_lattice, elem_of_possible_orients.
    tauto. }
  split; [done |]. intros player Hbudget [Hp Hd]%Hiff.
  apply elem_of_possible_walls_iff. repeat split; try done; try lia.
  intros Hnil. rewrite Hnil in Hd. by apply elem_of_nil in Hd.
Qed.

(** X10: the two wall queries agree: [all_possible_walls] lists the pair
    [(p, d)] exactly when [p] is a lattice point and [possible_orients]
    returns [d] at [p]; hence the start of every listed wall is offered by
    [possible_walls] to any player with a wall left. *)
Theorem all_possible_walls_iff (st : store) (p d : pos) :
  ((p, d) ∈ (all_possible_walls st).1
   ↔ (0 ≤ p.1 < 8 ∧ 0 ≤ p.2 < 8) ∧ d ∈ (possible_orients p st).1)
  ∧ ∀ player, Player.remaining_walls player ≠ 0 →
      (p, d) ∈ (all_possible_walls st).1 → p ∈ (possible_walls player st).1.
Proof. exact (elem_of_all_possible_walls_iff st p d). Qed.

(** * What [make_move] does to the store *)

Lemma py_get_index {A} (l : list A) (i : Z) (a : A) :
  py_get l i = Some a → ∃ k, py_index l i = Some k ∧ l !! k = Some a.
Proof.
  unfold py_get. destruct (py_index l i) as [k |]; [| done]. by exists k.
Qed.

Lemma make_move_wall_inv (st st' : store) (p d : pos) :
  Game.make_move "wall" p (Some d) st = Some st' →
  ∃ k player,
    py_index (players st) (currplayer st) = Some k
    ∧ players st !! k = Some player
    ∧ num_players st ≠ 0
    ∧ st' = mkStore (grid st) (walls st ++ [wall_at p d])
                    (<[k := Player.place_wall player]> (players st))
                    (visited st)
                    ((currplayer st + 1) `mod` num_players st)
                    (num_players st).
Proof.
  unfold Game.make_move; simpl. unfold Game.current.
  assert (Board.place_wall p d st = set_walls (walls st ++ [wall_at p d]) st) as ->
    by by destruct p, d.
  simpl. destruct (py_get _ _) as [player |] eqn:Hget; [| done].
  apply py_get_index in Hget as (k & Hk & Hl).
  unfold py_set. rewrite Hk. unfold Game.next_turn; simpl.
  destruct (Z.eqb_spec (num_players st) 0); [done |].
  intros [= <-]. by exists k, player.
Qed.

Lemma make_move_move_inv (st st' : store) (p : pos) (o : option pos) :
  Game.make_move "move" p o st = Some st' →
  ∃ k player g,
    py_index (players st) (currplayer st) = Some k
    ∧ players st !! k = Some player
    ∧ num_players st ≠ 0
    ∧ Board.move (Player.position player) p st = Some (set_grid g st)
    ∧ st' = mkStore g (walls st)
                    (<[k := Player.setpos player p]> (players st))
                    (visited st)
                    ((currplayer st + 1) `mod` num_players st)
                    (num_players st).
Proof.
  unfold Game.make_move; simpl. unfold Game.current.
  destruct (py_get _ _) as [player |] eqn:Hget; [| done].
  apply py_get_index in Hget as (k & Hk & Hl).
  destruct (Board.move _ _ _) as [st1 |] eqn:Hmove; [| done].
  assert (∃ g, st1 = set_grid g st) as [g ->].
  { unfold Board.move in Hmove.
    destruct (Player.position player), p.
    repeat case_match; simplify_eq. by eexists. }
  simpl. unfold py_set. rewrite Hk. unfold Game.next_turn; simpl.
  destruct (Z.eqb_spec (num_players st) 0); [done |].
  intros [= <-]. by exists k, player, g.
Qed.

(** The three cases of [make_move]. *)
Lemma make_move_cases (type : string) (p : pos) (o : option pos)
    (st st' : store) :
  Game.make_move type p o st = Some st' →
  (type = "wall" ∧ ∃ d, o = Some d)
  ∨ type = "move"
  ∨ (type ≠ "wall" ∧ type ≠ "move" ∧ st' = st).
Proof.
  unfold Game.make_move.
  destruct (String.eqb_spec type "wall") as [-> | Hw].
  - destruct o as [d |]; [| done]. intros _. left. eauto.
  - destruct (String.eqb_spec type "move") as [-> | Hm].
    + intros _. right. by left.
    + intros [= <-]. right. by right.
Qed.

Lemma goal_reachable_walls (st1 st2 : store) (node dest : pos) :
  walls st1 = walls st2 →
  goal_reachable st1 node dest → goal_reachable st2 node dest.
Proof.
  intros Hw (c & Hpath & Hgoal). exists c. split; [| done].
  eapply rtc_subrel; [| done]. intros a b. apply open_step_walls.
  by rewrite Hw.
Qed.

(** X11: a wall that [possible_orients] offers and [make_move] places
    leaves every player connected: on the store after the move, each player
    has a chain of open steps from its position to a cell that satisfies its
    goal. *)
Theorem offered_wall_keeps_players_connected (st st' : store) (p d : pos)
    (player : Player.t) :
  d ∈ (possible_orients p st).1 →
  Game.make_move "wall" p (Some d) st = Some st' →
  player ∈ players st' →
  goal_reachable st' (Player.position player) (Player.wins player).
Proof.
  intros (_ & _ & _ & Hall)%elem_of_possible_orients_iff
         (k & cur & Hk & Hcur & Hn & ->)%make_move_wall_inv Hplayer.
  simpl in Hplayer.
  apply list_elem_of_lookup in Hplayer as [i Hi].
  apply list_lookup_insert_Some in Hi as [(-> & <- & _) | (_ & Hi)].
  - eapply goal_reachable_walls; [| apply (Hall cur)]; [done |].
    by eapply list_elem_of_lookup_2.
  - eapply goal_reachable_walls; [| apply (Hall player)]; [done |].
    by eapply list_elem_of_lookup_2.
Qed.

Lemma offered_wall_keeps_players_connected_witness :
  ∃ st', Game.make_move "wall" (0, 0) (Some (1, 0)) game2 = Some st'
         ∧ goal_reachable st' (4, 8) (-1, 0).
Proof.
  destruct (Game.make_move "wall" (0, 0) (Some (1, 0)) game2) as [st' |] eqn:H;
    [| by vm_compute in H].
  exists st'. split; [done |].
  apply (offered_wall_keeps_players_connected game2 st' (0, 0) (1, 0)
           (Player.mk "slateblue" (4, 8) 10 false (-1, 0))).
  - apply (bool_decide_unpack _). by vm_compute.
  - done.
  - vm_compute in H. injection H as <-. apply (bool_decide_unpack _). by vm_compute.
Defined.

Lemma total_budget_insert (ps : list Player.t) (k : nat) (a b : Player.t) :
  ps !! k = Some a →
  total_budget (<[k := b]> ps)
  = total_budget ps - Player.remaining_walls a + Player.remaining_walls b.
Proof.
  revert k. induction ps as [| x ps IH]; intros k Hk; [done |].
  destruct k as [| k]; simpl in *.
  - injection Hk as ->. lia.
  - rewrite (IH k Hk). lia.
Qed.

(** X12: [make_move] conserves walls: after every call that returns, the
    sum of the wall budgets of the players plus the number of walls on the
    board is what it was before (a wall move takes one from the budget of
    the player to move and adds one wall; a pawn move changes neither). *)
Theorem make_move_conserves_walls (type : string) (p : pos) (o : option pos)
    (st st' : store) :
  Game.make_move type p o st = Some st' →
  total_budget (players st') + Z.of_nat (length (walls st'))
  = total_budget (players st) + Z.of_nat (length (walls st)).
Proof.
  intros H. destruct (make_move_cases _ _ _ _ _ H)
    as [[-> [d ->]] | [-> | (_ & _ & ->)]]; [| | done].
  - apply make_move_wall_inv in H as (k & cur & _ & Hcur & _ & ->). simpl.
    rewrite (total_budget_insert _ _ cur) by done.
    rewrite length_app. simpl. lia.
  - apply make_move_move_inv in H as (k & cur & g & _ & Hcur & _ & _ & ->). simpl.
    rewrite (total_budget_insert _ _ cur) by done. simpl. lia.
Qed.

Lemma make_move_conserves_walls_witness :
  ∃ st', Game.make_move "wall" (0, 0) (Some (1, 0)) game2 = Some st'
         ∧ total_budget (players st') + Z.of_nat (length (walls st'))
           = total_budget (players game2) + Z.of_nat (length (walls game2)).
Proof.
  destruct (Game.make_move "wall" (0, 0) (Some (1, 0)) game2) as [st' |] eqn:H;
    [| by vm_compute in H].
  exists st'. split; [done |].
  by apply (make_move_conserves_walls "wall" (0, 0) (Some (1, 0))).
Defined.

(** X13: [make_move] never clears a win and never changes who a player is:
    after every call that returns, each player is found at the index it had,
    with the colour and the goal it had, and with [won] still set if it was
    set. *)
Theorem make_move_keeps_players (type : string) (p : pos) (o : option pos)
    (st st' : store) (i : nat) (player : Player.t) :
  Game.make_move type p o st = Some st' →
  players st !! i = Some player →
  ∃ player', players st' !! i = Some player'
    ∧ Player.colour player' = Player.colour player
    ∧ Player.wins player' = Player.wins player
    ∧ (Player.won player = true → Player.won player' = true).
Proof.
  intros H Hi. destruct (make_move_cases _ _ _ _ _ H)
    as [[-> [d ->]] | [-> | (_ & _ & ->)]]; [| | by exists player].
  - apply make_move_wall_inv in H as (k & cur & _ & Hcur & _ & ->). simpl.
    destruct (decide (i = k)) as [-> | Hne].
    + rewrite list_lookup_insert_eq by by eapply lookup_lt_Some.
      assert (cur = player) as -> by congruence.
      by eexists.
    + rewrite list_lookup_insert_ne by done. by exists player.
  - apply make_move_move_inv in H as (k & cur & g & _ & Hcur & _ & _ & ->). simpl.
    destruct (decide (i = k)) as [-> | Hne].
    + rewrite list_lookup_insert_eq by by eapply lookup_lt_Some.
      assert (cur = player) as -> by congruence.
      eexists. split; [done |]. split; [done |]. split; [done |].
      rewrite setpos_won. intros ->. apply orb_true_r.
    + rewrite list_lookup_insert_ne by done. by exists player.
Qed.

Lemma make_move_keeps_players_witness :
  ∃ st' player', Game.make_move "move" (4, 1) None game2 = Some st'
    ∧ players st' !! 0%nat = Some player'
    ∧ Player.wins player' = (-1, 8).
Proof.
  destruct (Game.make_move "move" (4, 1) None game2) as [st' |] eqn:H;
    [| by vm_compute in H].
  destruct (make_move_keeps_players "move" (4, 1) None game2 st' 0
              (Player.mk "darkgreen" (4, 0) 10 false (-1, 8)) H)
    as (player' & Hp & _ & Hw & _); [done |].
  by exists st', player'.
Defined.

(** X14: after a wall move or a pawn move the index of the player to move is
    the successor of the old one modulo [num_players], hence within
    [0, num_players) when [num_players] is positive; [num_players] itself
    never changes. *)
Theorem make_move_advances_turn (type : string) (p : pos) (o : option pos)
    (st st' : store) :
  Game.make_move type p o st = Some st' →
  type = "wall" ∨ type = "move" →
  0 < num_players st →
  num_players st' = num_players st
  ∧ currplayer st' = (currplayer st + 1) `mod` num_players st
  ∧ 0 ≤ currplayer st' < num_players st.
Proof.
  intros H Htype Hn.
  assert (num_players st' = num_players st
          ∧ currplayer st' = (currplayer st + 1) `mod` num_players st) as [H1 H2].
  { destruct (make_move_cases _ _ _ _ _ H)
      as [[-> [d ->]] | [-> | (? & ? & ->)]]; [| | by destruct Htype].
    - by apply make_move_wall_inv in H as (k & cur & _ & _ & _ & ->).
    - by apply make_move_move_inv in H as (k & cur & g & _ & _ & _ & _ & ->). }
  split; [done |]. split; [done |]. rewrite H2. by apply Z.mod_pos_bound.
Qed.

Lemma make_move_advances_turn_witness :
  ∃ st', Game.make_move "move" (4, 1) None game2 = Some st'
         ∧ 0 ≤ currplayer st' < 2.
Proof.
  destruct (Game.make_move "move" (4, 1) None game2) as [st' |] eqn:H;
    [| by vm_compute in H].
  exists st'. split; [done |].
  apply (make_move_advances_turn "move" (4, 1) None game2 st' H).
  - by right.
  - reflexivity.
Defined.

(** * The searches return *)

(** X15: [way_exists] returns on every store, from every node and for every
    goal: 83 nested calls (one per cell of the board, one for a start node
    off the board, one for the call that meets the goal) are never
    exceeded. *)
Theorem way_exists_returns (st : store) (node dest : pos) :
  way_exists_fuel 83 node dest st = Some (way_exists node dest st).
Proof.
  destruct (way_exists_fuel_total node dest st) as [r Hr].
  unfold way_exists. rewrite Hr. exact Hr.
Qed.

(** X16: [bfs] returns on every store, from every position and for every
    goal: its loop ends within 83 iterations. *)
Theorem bfs_returns (st : store) (p wins : pos) :
  bfs_loop 83 wins [(p, 0)] (visit p (reset st).2).2 = Some (bfs p wins st).
Proof.
  destruct (bfs_loop_total st p wins) as [r Hr].
  unfold bfs. rewrite Hr. exact Hr.
Qed.

(** * The distance along a move *)

Lemma bfs_set_visited (p wins : pos) (v : gset pos) (st : store) :
  bfs p wins (set_visited v st) = bfs p wins st.
Proof. reflexivity. Qed.

Lemma bfs_visited_only (p wins : pos) (st : store) :
  touches_visited_only (bfs p wins) st (bfs p wins st).1.
Proof.
  intros v. destruct (bfs_keeps p wins st v) as (a & v' & Heq).
  exists v'. rewrite Heq. f_equal.
  rewrite bfs_set_visited in Heq. by rewrite Heq.
Qed.

(** X17: along any move the distance of [bfs] drops by at most one, and
    from a position whose distance is neither 0 nor the sentinel some move
    of [possible_moves] has a distance exactly one less. *)
Theorem bfs_drops_by_one (st : store) (p wins : pos) :
  (∀ m, m ∈ possible_moves st p → (bfs p wins st).1 ≤ (bfs m wins st).1 + 1)
  ∧ ((bfs p wins st).1 ≠ 0 → (bfs p wins st).1 ≠ 1000000 →
     ∃ m, m ∈ possible_moves st p ∧ (bfs m wins st).1 = (bfs p wins st).1 - 1).
Proof.
  pose proof (bfs_shortest st p wins) as Hp. split.
  - intros m Hm. pose proof (bfs_shortest st m wins) as Hm'.
    destruct Hm' as [(k & c & -> & Hk & Hr & Hg & _) | [-> _]].
    + destruct Hp as [(n & c' & -> & _ & _ & _ & Hmin) | [_ Hnone]].
      * assert (n ≤ S k)%nat by (apply (Hmin _ c); [by eapply reach_step | done]).
        lia.
      * rewrite (Hnone (S k) c) in Hg; [done |]. by eapply reach_step.
    + destruct Hp as [(n & c' & -> & Hn & _) | [-> _]]; lia.
  - intros H0 H1.
    destruct Hp as [(n & c & Hd & _ & Hr & Hg & Hmin) | [Hd _]]; [| done].
    rewrite Hd in *. inversion Hr as [a | n' a b c0 Hab Hbc]; subst; [done |].
    exists b. split; [done |].
    destruct (bfs_shortest st b wins) as [(k & c' & -> & _ & Hr' & Hg' & Hmin') | [_ Hnone]].
    + assert (k ≤ n')%nat by by apply (Hmin' _ c).
      assert (S n' ≤ S k)%nat by (apply (Hmin _ c'); [by eapply reach_step | done]).
      lia.
    + by rewrite (Hnone n' c) in Hg.
Qed.

(** * The choices of the bot *)

Lemma bind_run {A B} (m : M A) (k : A → M B) (st : store) :
  bind m k st = k (m st).1 (m st).2.
Proof. unfold bind. by destruct (m st). Qed.

Lemma argmin_fold {A} (f : A → Z) (l : list A) (b0 r : A * Z) :
  fold_left (λ best m, if f m <? best.2 then (m, f m) else best) l b0 = r →
  r.2 ≤ b0.2 ∧ (∀ m, m ∈ l → r.2 ≤ f m)
  ∧ (r = b0 ∨ (r.1 ∈ l ∧ r.2 = f r.1)).
Proof.
  revert b0. induction l as [| x l IH]; intros b0; simpl.
  - intros <-. split; [lia |]. split; [| by left].
    intros m Hm. by apply elem_of_nil in Hm.
  - destruct (Z.ltb_spec (f x) b0.2) as [Hlt | Hge]; intros Hr.
    + destruct (IH (x, f x) Hr) as (H1 & H2 & H3). simpl in *.
      split; [lia |]. split.
      * intros m [-> | Hm]%elem_of_cons; [done | by apply H2].
      * right. destruct H3 as [-> | [H3 H4]]; simpl.
        -- split; [by left | done].
        -- split; [by right | done].
    + destruct (IH b0 Hr) as (H1 & H2 & H3).
      split; [lia |]. split.
      * intros m [-> | Hm]%elem_of_cons; [lia | by apply H2].
      * destruct H3 as [-> | [H3 H4]]; [by left |].
        right. split; [by right | done].
Qed.

(** X18: [best_move] fails exactly when [possible_moves] returns no move;
    otherwise it returns a move of [possible_moves] together with its [bfs]
    distance, no move of [possible_moves] has a smaller distance, and
    neither the grid nor the wall list is changed. *)
Theorem best_move_minimal (st : store) (start wins : pos) :
  (best_move start wins st = None ↔ possible_moves st start = [])
  ∧ ∀ bm bs st', best_move start wins st = Some ((bm, bs), st') →
      bm ∈ possible_moves st start
      ∧ bs = (bfs bm wins st).1
      ∧ (∀ m, m ∈ possible_moves st start → bs ≤ (bfs m wins st).1)
      ∧ grid st' = grid st ∧ walls st' = walls st.
Proof.
  unfold best_move. destruct (possible_moves st start) as [| m0 l] eqn:Hmoves;
    [done |].
  split; [done |]. intros bm bs st' Hrun. rewrite bind_run in Hrun.
  destruct (bfs_visited_only m0 wins st (visited st)) as [v0 Hv0].
  rewrite set_visited_id in Hv0. rewrite Hv0 in Hrun. cbn [fst snd] in Hrun.
  destruct (foldM_visited_only
              (λ move best, let* score := bfs move wins in
                            ret (if score <? best.2 then (move, score) else best))
              (λ best m, if (bfs m wins st).1 <? best.2
                         then (m, (bfs m wins st).1) else best)
              st (m0 :: l) (m0, (bfs m0 wins st).1)) with (v := v0) as [v1 Hv1].
  { intros move best v. unfold bind.
    destruct (bfs_visited_only move wins st v) as [v' ->]. by exists v'. }
  rewrite Hv1 in Hrun. injection Hrun as Hbest <-.
  destruct (argmin_fold (λ m, (bfs m wins st).1) (m0 :: l)
              (m0, (bfs m0 wins st).1) (bm, bs) Hbest) as (_ & Hmin & Hin).
  simpl in Hmin, Hin.
  split; [| split; [| split; [done | done]]].
  - destruct Hin as [[= -> _] | [Hin _]]; [by left | done].
  - destruct Hin as [[= -> ->] | [_ Hin]]; done.
Qed.

Lemma best_wall_step_fst (my_pos win : pos) (cand : pos * pos)
    (best : option (pos * pos) * Z) (s : store) :
  (best_wall_step my_pos win cand best s).1 = best
  ∨ (best_wall_step my_pos win cand best s).1.1 = Some cand.
Proof.
  destruct cand as [q dir]. unfold best_wall_step. rewrite !bind_run.
  unfold ret; simpl. destruct (_ <? _); [by right | by left].
Qed.

(** X19: [best_wall] returns [None] or an entry of the list that
    [all_possible_walls] returns on the store it was called on: the bot
    never picks a wall that [possible_orients] does not offer. *)
Theorem best_wall_is_offered (st : store) (my_pos win p d : pos) :
  (best_wall my_pos win st).1 = Some (p, d) →
  (0 ≤ p.1 < 8 ∧ 0 ≤ p.2 < 8) ∧ d ∈ (possible_orients p st).1.
Proof.
  intros H. apply elem_of_all_possible_walls_iff.
  destruct (touches_visited_only_run _ _ _ (all_possible_walls_spec st)) as [Hall _].
  rewrite Hall. clear Hall.
  unfold best_wall in H. rewrite bind_run in H.
  destruct (all_possible_walls_spec st (visited st)) as [v1 Hv1].
  rewrite set_visited_id in Hv1. rewrite Hv1 in H. cbn [fst snd] in H.
  set (all_w := flat_map _ lattice) in *.
  assert (∀ (l : list (pos * pos)) best s,
            (∀ c, best.1 = Some c → c ∈ all_w) → (∀ c, c ∈ l → c ∈ all_w) →
            ∀ c, (foldM (best_wall_step my_pos win) l best s).1.1 = Some c →
                 c ∈ all_w) as Hfold.
  { induction l as [| [q dir] l IH]; intros best s Hbest Hl c; cbn [foldM].
    - apply Hbest.
    - rewrite bind_run.
      apply IH; [| intros c' Hc'; apply Hl; by right].
      destruct (best_wall_step_fst my_pos win (q, dir) best s) as [-> | ->];
        [done |].
      intros c' [= <-]. apply Hl. by left. }
  rewrite bind_run in H.
  apply (Hfold all_w (None, -1000) (set_visited v1 st)); [done | done |].
  exact H.
Qed.

Lemma best_wall_is_offered_witness :
  (0 ≤ 0 < 8 ∧ 0 ≤ 0 < 8) ∧ (1, 0) ∈ (possible_orients (0, 0) met_store).1.
Proof.
  apply (best_wall_is_offered met_store (4, 8) (-1, 8) (0, 0) (1, 0)).
  by vm_compute.
Defined.

(** * The grid and the positions of the players agree *)

(** X20: a pawn move to a cell that [possible_moves] offers keeps the grid
    and the positions of the players in agreement, and [make_move] accepts
    it. *)
Theorem offered_move_keeps_grid_agreement (st : store) (player : Player.t)
    (to : pos) (o : option pos) :
  grid_agrees st →
  Game.current st = Some player →
  num_players st ≠ 0 →
  to ∈ possible_moves st (Player.position player) →
  ∃ st', Game.make_move "move" to o st = Some st' ∧ grid_agrees st'.
Proof.
  intros (Hwf & Hpl & Hcell) Hcur Hn Hto.
  destruct (possible_moves_free st _ _ Hto) as (Hx & Hy & Hfree & Hne).
  assert (in_board to = true) as Hin by (apply in_board_iff; lia).
  destruct (py_get_index _ _ _ Hcur) as (k & Hk & Hlk).
  destruct (Hpl k player Hlk) as [Hfr Hfrc].
  destruct (move_cells st _ _ Hwf Hfr Hin) as (g & Hmove & Hwf' & Hcells).
  destruct (current_py_set st player (Player.setpos player to) Hcur)
    as (ps & Hset & _).
  assert (ps = <[k := Player.setpos player to]> (players st)) as ->.
  { unfold py_set in Hset. rewrite Hk in Hset. simpl in Hset. congruence. }
  unfold Game.make_move; simpl. rewrite Hcur, Hmove; simpl. rewrite Hset.
  unfold Game.next_turn; simpl.
  apply Z.eqb_neq in Hn. rewrite Hn. eexists. split; [done |].
  split; [done |]. simpl. split.
  - intros i pl [(-> & <- & _) | (Hik & Hi)]%list_lookup_insert_Some.
    + simpl. split; [done |]. rewrite (Hcells to Hin).
      rewrite decide_False by done. by rewrite decide_True.
    + destruct (Hpl i pl Hi) as [Hpin Hpc]. split; [done |].
      rewrite (Hcells _ Hpin).
      rewrite decide_False by (intros Heq; rewrite Heq, Hfrc in Hpc; congruence).
      rewrite decide_False by (intros Heq; rewrite Heq, Hfree in Hpc; congruence).
      by destruct (Player.position pl).
  - intros c i Hc. rewrite (Hcells c Hc).
    destruct (decide (c = Player.position player)) as [-> | Hc1]; [done |].
    destruct (decide (c = to)) as [-> | Hc2].
    + rewrite Hfrc. intros [= <-]. exists (Player.setpos player to).
      split; [| done]. apply list_lookup_insert_eq. by eapply lookup_lt_Some.
    + intros Hci. destruct (Hcell c i Hc Hci) as (pl & Hi & Hpos).
      exists pl. split; [| done]. rewrite list_lookup_insert_ne; [done |].
      intros <-. assert (pl = player) as -> by congruence. done.
Qed.

Lemma game2_grid_agrees : grid_agrees game2.
Proof.
  split; [| split].
  - split; [reflexivity |]. intros i row Hrow.
    do 9 (destruct i as [| i]; [by injection Hrow as <- |]). done.
  - intros i pl Hi.
    do 2 (destruct i as [| i]; [injection Hi as <-; by vm_compute |]). done.
  - intros [x y] i [Hx Hy]%in_board_iff Hc. simpl in *.
    assert (x ∈ seqZ 0 9) as Hxs by (apply elem_of_seqZ; lia).
    assert (y ∈ seqZ 0 9) as Hys by (apply elem_of_seqZ; lia).
    clear Hx Hy. vm_compute in Hxs, Hys.
    repeat (apply elem_of_cons in Hxs as [-> | Hxs]);
      [.. | by apply elem_of_nil in Hxs];
      repeat (apply elem_of_cons in Hys as [-> | Hys]);
      try (by apply elem_of_nil in Hys);
      vm_compute in Hc; try done; injection Hc as <-; by eexists.
Qed.

Lemma offered_move_keeps_grid_agreement_witness :
  ∃ st', Game.make_move "move" (4, 1) None game2 = Some st' ∧ grid_agrees st'.
Proof.
  apply (offered_move_keeps_grid_agreement game2
           (Player.mk "darkgreen" (4, 0) 10 false (-1, 8)) (4, 1) None).
  - exact game2_grid_agrees.
  - reflexivity.
  - simpl. lia.
  - apply (bool_decide_unpack _). by vm_compute.
Defined.
